(** * Chessington: move generation of the six piece kinds

    A shallow embedding of [chessington/engine/pieces.py] together with the
    board and square interface it calls into, and the properties of the move
    generators that the specification states. *)

From stdpp Require Import base decidable option list numbers countable strings gmap fin_maps.

Local Open Scope Z_scope.

(** ** Data model *)

(** [Player] of [chessington.engine.data]: the two sides. *)
Inductive Player : Type := WHITE | BLACK.

(** A [Square] is a (row, col) pair of Python integers. *)
Record Square : Type := mkSquare { row : Z; col : Z }.

(** The six subclasses of [Piece]. *)
Inductive Kind : Type := Pawn | Knight | Bishop | Rook | Queen | King.

(** A piece object.  Python compares pieces by object identity; [ident]
    stands for the identity of the object, so that two pawns of the same
    player are different pieces.  [player] is the attribute set by
    [Piece.__init__], [kind] is the class of the object. *)
Record Piece : Type := mkPiece { ident : nat; kind : Kind; player : Player }.

#[global] Instance Player_eq_dec : EqDecision Player.
Proof. solve_decision. Defined.

#[global] Instance Kind_eq_dec : EqDecision Kind.
Proof. solve_decision. Defined.

#[global] Instance Square_eq_dec : EqDecision Square.
Proof. solve_decision. Defined.

#[global] Instance Piece_eq_dec : EqDecision Piece.
Proof. solve_decision. Defined.

#[global] Instance Square_countable : Countable Square.
Proof.
  refine (inj_countable' (λ s, (row s, col s)) (λ p, mkSquare p.1 p.2) _).
  by intros [r c].
Defined.

(** The board is the occupancy mapping from squares to pieces. *)
Abbreviation Board := (gmap Square Piece).

(** ** Errors and the computation monad *)

Inductive error : Type := OutOfBoundsError | PieceNotFoundError.

(** What a call ends in: a value, a raised exception, or a [while True]
    loop that was still running when the fuel ran out. *)
Inductive outcome (A : Type) : Type :=
  | Ok (a : A)
  | Raise (e : error)
  | OutOfFuel.
Arguments Ok {A} a.
Arguments Raise {A} e.
Arguments OutOfFuel {A}.

(** Methods take the board object and may mutate it: a computation maps the
    board before the call to the board after it and the outcome. *)
Definition M (A : Type) : Type := Board → Board * outcome A.

Definition ret {A} (a : A) : M A := λ b, (b, Ok a).

Definition bind {A B} (m : M A) (f : A → M B) : M B :=
  λ b, match m b with
       | (b', Ok a) => f a b'
       | (b', Raise e) => (b', Raise e)
       | (b', OutOfFuel) => (b', OutOfFuel)
       end.

Definition lift {A} (o : outcome A) : M A := λ b, (b, o).

Notation "'let*' x ':=' m 'in' k" := (bind m (λ x, k))
  (at level 10, x name, m at level 100, k at level 200).

(** [for x in xs: body], where the body updates the local variables [st]. *)
Fixpoint for_each {X S : Type} (xs : list X) (body : X → S → M S) (st : S) : M S :=
  match xs with
  | [] => ret st
  | x :: xs' => let* st' := body x st in for_each xs' body st'
  end.

(** ** Squares and the board *)

(** The test [0 <= r < 8 and 0 <= c < 8] of the generators. *)
Definition in_range (r c : Z) : bool :=
  (0 <=? r) && (r <? 8) && (0 <=? c) && (c <? 8).

Definition on_board (s : Square) : Prop := in_range (row s) (col s) = true.

(** Modelled from the spec: [Square.at] of [chessington/engine/data.py],
    which is not part of the sources.  Constructing a square outside
    [0,7]x[0,7] fails with an [OutOfBoundsError]; it never clamps or wraps. *)
Definition Square_at (r c : Z) : outcome Square :=
  if in_range r c then Ok (mkSquare r c) else Raise OutOfBoundsError.

(** The 64 squares of the grid, row by row. *)
Definition all_squares : list Square :=
  r ← seqZ 0 8; c ← seqZ 0 8; [mkSquare r c].

(** Modelled from the spec: [Board.get_piece] of
    [chessington/engine/board.py], which is not part of the sources.  The
    occupancy lookup; total, it never raises. *)
Definition get_piece (square : Square) : M (option Piece) :=
  λ b, (b, Ok (b !! square)).

(** Modelled from the spec: [Board.set_piece] of
    [chessington/engine/board.py].  Places a piece, overwriting any
    occupant. *)
Definition set_piece (square : Square) (piece : Piece) : M unit :=
  λ b, (<[square := piece]> b, Ok tt).

(** Modelled from the spec: [Board.find_piece] of
    [chessington/engine/board.py].  The reverse lookup by piece identity over
    the 8x8 grid; it fails with a [PieceNotFoundError] unless the piece is
    present exactly once. *)
Definition find_piece (piece : Piece) : M Square :=
  λ b, match filter (λ s, b !! s = Some piece) all_squares with
       | [s] => (b, Ok s)
       | _ => (b, Raise PieceNotFoundError)
       end.

(** Modelled from the spec: [Board.move_piece] of
    [chessington/engine/board.py].  Relocates whatever occupies
    [from_square] to [to_square], clearing [from_square] and overwriting
    [to_square]. *)
Definition move_piece (from_square to_square : Square) : M unit :=
  λ b, (partial_alter (λ _, b !! from_square) to_square (delete from_square b), Ok tt).

(** ** The pieces *)

(** [Piece.move_to]. *)
Definition move_to (self : Piece) (new_square : Square) : M unit :=
  let* current_square := find_piece self in
  move_piece current_square new_square.

(** [Pawn.get_available_moves]. *)
Definition Pawn_get_available_moves (self : Piece) : M (list Square) :=
  let* current_square := find_piece self in
  let moves := [] in
  let '(direction, starting_row) :=
    if decide (player self = WHITE) then (1, 1) else (-1, 6) in
  let* one_forward := lift (Square_at (row current_square + direction) (col current_square)) in
  let* at_one := get_piece one_forward in
  match at_one with
  | None =>
      let moves := moves ++ [one_forward] in
      if decide (row current_square = starting_row) then
        let* two_forward := lift (Square_at (row current_square + 2 * direction) (col current_square)) in
        let* at_two := get_piece two_forward in
        match at_two with
        | None => ret (moves ++ [two_forward])
        | Some _ => ret moves
        end
      else ret moves
  | Some _ => ret moves
  end.

(** The body of the [for dr, dc in ...] loop of [Knight] and [King]: one
    hop, kept when it stays on the board and the target is empty or holds an
    opponent. *)
Definition hop (self : Piece) (current_square : Square) (d : Z * Z)
    (moves : list Square) : M (list Square) :=
  let '(dr, dc) := d in
  let new_row := row current_square + dr in
  let new_col := col current_square + dc in
  if in_range new_row new_col then
    let* target_square := lift (Square_at new_row new_col) in
    let* piece_at_target := get_piece target_square in
    match piece_at_target with
    | None => ret (moves ++ [target_square])
    | Some q =>
        if decide (player q ≠ player self) then ret (moves ++ [target_square])
        else ret moves
    end
  else ret moves.

Definition jumps : list (Z * Z) :=
  [(-2, -1); (-2, 1); (-1, -2); (-1, 2); (1, -2); (1, 2); (2, -1); (2, 1)].

Definition King_directions : list (Z * Z) :=
  [(-1, -1); (-1, 0); (-1, 1); (0, -1); (0, 1); (1, -1); (1, 0); (1, 1)].

(** [Knight.get_available_moves]. *)
Definition Knight_get_available_moves (self : Piece) : M (list Square) :=
  let* current_square := find_piece self in
  for_each jumps (hop self current_square) [].

(** [King.get_available_moves]. *)
Definition King_get_available_moves (self : Piece) : M (list Square) :=
  let* current_square := find_piece self in
  for_each King_directions (hop self current_square) [].

(** The [while True] loop of [Bishop], [Rook] and [Queen]: [new_row] and
    [new_col] are the loop variables, [moves] the list built so far. *)
Fixpoint walk (fuel : nat) (self : Piece) (dr dc : Z) (new_row new_col : Z)
    (moves : list Square) : M (list Square) :=
  match fuel with
  | O => lift OutOfFuel
  | S fuel' =>
      let new_row := new_row + dr in
      let new_col := new_col + dc in
      if negb (in_range new_row new_col) then ret moves
      else
        let* target_square := lift (Square_at new_row new_col) in
        let* piece_at_target := get_piece target_square in
        match piece_at_target with
        | None => walk fuel' self dr dc new_row new_col (moves ++ [target_square])
        | Some q =>
            if decide (player q ≠ player self) then ret (moves ++ [target_square])
            else ret moves
        end
  end.

(** The body of the [for dr, dc in directions] loop of the sliding pieces. *)
Definition slide (fuel : nat) (self : Piece) (current_square : Square) (d : Z * Z)
    (moves : list Square) : M (list Square) :=
  let '(dr, dc) := d in
  walk fuel self dr dc (row current_square) (col current_square) moves.

Definition Bishop_directions : list (Z * Z) :=
  [(-1, -1); (-1, 1); (1, -1); (1, 1)].

Definition Rook_directions : list (Z * Z) :=
  [(-1, 0); (1, 0); (0, -1); (0, 1)].

Definition Queen_directions : list (Z * Z) :=
  [(-1, 0); (1, 0); (0, -1); (0, 1); (-1, -1); (-1, 1); (1, -1); (1, 1)].

(** [Bishop.get_available_moves]. *)
Definition Bishop_get_available_moves (fuel : nat) (self : Piece) : M (list Square) :=
  let* current_square := find_piece self in
  for_each Bishop_directions (slide fuel self current_square) [].

(** [Queen.get_available_moves]. *)
Definition Queen_get_available_moves (fuel : nat) (self : Piece) : M (list Square) :=
  let* current_square := find_piece self in
  for_each Queen_directions (slide fuel self current_square) [].

(** [Rook.get_available_moves]. *)
Definition Rook_get_available_moves (fuel : nat) (self : Piece) : M (list Square) :=
  let* current_square := find_piece self in
  for_each Rook_directions (slide fuel self current_square) [].

(** Dynamic dispatch of [piece.get_available_moves(board)] on the class of
    the piece.  [fuel] bounds the iterations of each [while True] loop. *)
Definition get_available_moves (fuel : nat) (self : Piece) : M (list Square) :=
  match kind self with
  | Pawn => Pawn_get_available_moves self
  | Knight => Knight_get_available_moves self
  | Bishop => Bishop_get_available_moves fuel self
  | Rook => Rook_get_available_moves fuel self
  | Queen => Queen_get_available_moves fuel self
  | King => King_get_available_moves self
  end.

(** ** Auxiliary notions used in the statements *)

(** The square reached from [s] after [k] steps along [d]. *)
Definition shift (s : Square) (d : Z * Z) (k : Z) : Square :=
  mkSquare (row s + k * d.1) (col s + k * d.2).

(** The square one hop [d] away from [s]. *)
Definition offset (s : Square) (d : Z * Z) : Square :=
  mkSquare (row s + d.1) (col s + d.2).

(** A piece of player [pl] may land on [t]: the square is unoccupied, or its
    occupant belongs to the other player. *)
Definition can_land (b : Board) (pl : Player) (t : Square) : Prop :=
  match b !! t with
  | None => True
  | Some q => player q ≠ pl
  end.

#[global] Instance can_land_dec b pl t : Decision (can_land b pl t).
Proof. unfold can_land. destruct (b !! t); apply _. Defined.

#[global] Instance on_board_dec s : Decision (on_board s).
Proof. unfold on_board. apply _. Defined.

(** The direction sets and offset sets, by class. *)
Definition directions_of (k : Kind) : list (Z * Z) :=
  match k with
  | Bishop => Bishop_directions
  | Rook => Rook_directions
  | Queen => Queen_directions
  | Knight => jumps
  | King => King_directions
  | Pawn => []
  end.

Definition sliding (k : Kind) : Prop := k = Bishop ∨ k = Rook ∨ k = Queen.
Definition stepping (k : Kind) : Prop := k = Knight ∨ k = King.

(** The forward direction and the nominal starting row of a pawn. *)
Definition pawn_direction (pl : Player) : Z :=
  match pl with WHITE => 1 | BLACK => -1 end.

Definition pawn_starting_row (pl : Player) : Z :=
  match pl with WHITE => 1 | BLACK => 6 end.

(** [located b piece s]: the piece occupies square [s] of the grid and no
    other square of it. *)
Definition located (b : Board) (piece : Piece) (s : Square) : Prop :=
  on_board s ∧ b !! s = Some piece ∧
  ∀ t, on_board t → b !! t = Some piece → t = s.

(** [absent b piece]: no square of the grid holds the piece. *)
Definition absent (b : Board) (piece : Piece) : Prop :=
  ∀ t, on_board t → b !! t ≠ Some piece.

(** [ray_stops_at b pl s d n]: a piece of player [pl] walking from [s] along
    [d] emits exactly the first [n] squares of the line.  The squares 1..n
    are on the board, the squares before the [n]-th are unoccupied, the
    [n]-th is unoccupied or held by the opponent, and the walk ends there:
    the next square is off the board, or the [n]-th square is occupied (a
    capture), or the next square is held by a piece of the same player. *)
Definition ray_stops_at (b : Board) (pl : Player) (s : Square) (d : Z * Z) (n : Z) : Prop :=
  0 ≤ n
  ∧ (∀ k, 1 ≤ k ≤ n → on_board (shift s d k))
  ∧ (∀ k, 1 ≤ k < n → b !! shift s d k = None)
  ∧ (0 < n → can_land b pl (shift s d n))
  ∧ (¬ on_board (shift s d (n + 1))
     ∨ (0 < n ∧ is_Some (b !! shift s d n))
     ∨ (∃ q, b !! shift s d (n + 1) = Some q ∧ player q = pl)).

(** [ray_of b pl s d ray]: [ray] lists, nearest first, the squares that the
    walk from [s] along [d] emits. *)
Definition ray_of (b : Board) (pl : Player) (s : Square) (d : Z * Z)
    (ray : list Square) : Prop :=
  ∃ n, ray = shift s d <$> seqZ 1 n ∧ ray_stops_at b pl s d n.

(** A caller that asks for the moves of a piece twice in a row, with nothing
    in between, and keeps both answers. *)
Definition ask_twice (fuel : nat) (self : Piece) : M (list Square * list Square) :=
  let* first := get_available_moves fuel self in
  let* second := get_available_moves fuel self in
  ret (first, second).

(** How many steps along [d] stay on the board, starting from [s]: the
    distance to the edge that a unit direction runs into first. *)
Definition room (x step : Z) : Z :=
  match step with
  | Z0 => 7
  | Zpos _ => 7 - x
  | Zneg _ => x
  end.

Definition steps_to_edge (s : Square) (d : Z * Z) : Z :=
  Z.min (room (row s) d.1) (room (col s) d.2).

(** [self.__class__.__name__]: the name of the class of the piece. *)
Definition class_name (k : Kind) : string :=
  match k with
  | Pawn => "Pawn" | Knight => "Knight" | Bishop => "Bishop"
  | Rook => "Rook" | Queen => "Queen" | King => "King"
  end.

(** [player._name_]: the name of the enum member, as the source spells it. *)
Definition player_name (pl : Player) : string :=
  match pl with WHITE => "WHITE" | BLACK => "BLACK" end.

(** [str.lower] on ASCII text. *)
Definition lower_ascii (c : Ascii.ascii) : Ascii.ascii :=
  if ((65 <=? Ascii.nat_of_ascii c) && (Ascii.nat_of_ascii c <=? 90))%nat
  then Ascii.ascii_of_nat (Ascii.nat_of_ascii c + 32) else c.

Fixpoint lower (s : string) : string :=
  match s with
  | EmptyString => EmptyString
  | String c s' => String (lower_ascii c) (lower s')
  end.

(** [Piece.to_json]: the dict with the keys "piece" and "player". *)
Definition to_json (self : Piece) : gmap string string :=
  {[ "piece" := class_name (kind self);
     "player" := lower (player_name (player self)) ]}.

(** A computation that leaves the board as it found it. *)
Definition read_only {A} (m : M A) : Prop := ∀ b, (m b).1 = b.

(** ** The monad and the loops *)

Lemma read_only_ret {A} (a : A) : read_only (ret a).
Proof. by intros b. Qed.

Lemma read_only_lift {A} (o : outcome A) : read_only (lift o).
Proof. by intros b. Qed.

Lemma read_only_bind {A B} (m : M A) (f : A → M B) :
  read_only m → (∀ a, read_only (f a)) → read_only (bind m f).
Proof.
  intros Hm Hf b. unfold bind. specialize (Hm b).
  destruct (m b) as [b' [a|e|]]; simpl in *; subst; [apply Hf|done..].
Qed.

Lemma read_only_get_piece sq : read_only (get_piece sq).
Proof. by intros b. Qed.

Lemma read_only_find_piece piece : read_only (find_piece piece).
Proof.
  intros b. unfold find_piece.
  by destruct (filter _ all_squares) as [|s [|??]].
Qed.

Lemma read_only_for_each {X S} (xs : list X) (body : X → S → M S) :
  (∀ x st, read_only (body x st)) → ∀ st, read_only (for_each xs body st).
Proof.
  intros Hbody. induction xs as [|x xs IH]; intros st; simpl.
  - apply read_only_ret.
  - apply read_only_bind; auto.
Qed.

Create HintDb frame.
#[local] Hint Resolve read_only_ret read_only_lift read_only_get_piece
  read_only_find_piece : frame.

Ltac frame_step :=
  lazymatch goal with
  | |- read_only (bind _ _) => apply read_only_bind; [|intros ?]
  | |- read_only (for_each _ _ _) => apply read_only_for_each; intros ? ?
  | |- read_only (match ?x with _ => _ end) => destruct x
  | |- read_only (if ?c then _ else _) => destruct c
  | |- read_only _ => solve [auto with frame]
  end.

Lemma read_only_hop self s d moves : read_only (hop self s d moves).
Proof. unfold hop. destruct d as [dr dc]. repeat frame_step. Qed.

Lemma read_only_walk fuel self dr dc : ∀ r c moves,
  read_only (walk fuel self dr dc r c moves).
Proof.
  induction fuel as [|fuel IH]; intros r c moves; simpl.
  - apply read_only_lift.
  - destruct (negb _); [apply read_only_ret|].
    apply read_only_bind; [apply read_only_lift|intros t].
    apply read_only_bind; [apply read_only_get_piece|intros [q|]].
    + destruct (decide _); apply read_only_ret.
    + apply IH.
Qed.

Lemma read_only_slide fuel self s d moves : read_only (slide fuel self s d moves).
Proof. destruct d as [dr dc]. apply read_only_walk. Qed.

#[local] Hint Resolve read_only_hop read_only_slide : frame.

Lemma read_only_Pawn self : read_only (Pawn_get_available_moves self).
Proof.
  unfold Pawn_get_available_moves.
  apply read_only_bind; [auto with frame|intros s].
  destruct (decide (player self = WHITE)); repeat frame_step.
Qed.

Lemma read_only_get_available_moves fuel self :
  read_only (get_available_moves fuel self).
Proof.
  unfold get_available_moves.
  destruct (kind self); [apply read_only_Pawn|..];
    (apply read_only_bind; [auto with frame|intros s]);
    apply read_only_for_each; auto with frame.
Qed.

(** ** Locating a piece *)

Lemma in_range_spec r c : in_range r c = true ↔ 0 ≤ r < 8 ∧ 0 ≤ c < 8.
Proof. unfold in_range. rewrite !andb_true_iff. lia. Qed.

Lemma on_board_spec s : on_board s ↔ 0 ≤ row s < 8 ∧ 0 ≤ col s < 8.
Proof. apply in_range_spec. Qed.

Lemma elem_of_all_squares s : s ∈ all_squares ↔ on_board s.
Proof.
  unfold all_squares. rewrite on_board_spec, list_elem_of_bind. split.
  - intros (r & Hin & Hr%elem_of_seqZ).
    apply list_elem_of_bind in Hin as (c & ->%list_elem_of_singleton & Hc%elem_of_seqZ).
    simpl. lia.
  - intros [Hr Hc]. exists (row s). split; [|apply elem_of_seqZ; lia].
    apply list_elem_of_bind. exists (col s).
    split; [destruct s; by apply list_elem_of_singleton|apply elem_of_seqZ; lia].
Qed.

Lemma NoDup_all_squares : NoDup all_squares.
Proof. apply (bool_decide_unpack _). by vm_compute. Qed.

Lemma filter_none {A} (P : A → Prop) `{∀ x, Decision (P x)} (l : list A) :
  (∀ x, x ∈ l → ¬ P x) → filter P l = [].
Proof.
  induction l as [|x l IH]; intros Hl; [done|].
  rewrite filter_cons, decide_False by (apply Hl; set_solver).
  apply IH. intros y Hy. apply Hl. set_solver.
Qed.

Lemma filter_unique {A} (P : A → Prop) `{∀ x, Decision (P x)} (l : list A) (a : A) :
  NoDup l → a ∈ l → P a → (∀ x, x ∈ l → P x → x = a) → filter P l = [a].
Proof.
  induction l as [|x l IH]; intros Hnd Hin Ha Huniq; [by apply elem_of_nil in Hin|].
  apply NoDup_cons in Hnd as [Hx Hnd]. rewrite filter_cons.
  apply elem_of_cons in Hin as [->|Hin].
  - rewrite decide_True by done. f_equal.
    apply filter_none. intros y Hy HPy.
    apply Hx. by rewrite <- (Huniq y) by set_solver.
  - rewrite decide_False.
    + apply IH; [done..|]. intros y Hy. apply Huniq. set_solver.
    + intros HPx. apply Hx. by rewrite (Huniq x) by set_solver.
Qed.

Lemma find_piece_located b piece s :
  located b piece s → find_piece piece b = (b, Ok s).
Proof.
  intros (Hon & Hs & Huniq). unfold find_piece.
  rewrite (filter_unique (λ t, b !! t = Some piece) all_squares s); [done|..].
  - apply NoDup_all_squares.
  - by apply elem_of_all_squares.
  - done.
  - intros t Ht. apply Huniq. by apply elem_of_all_squares.
Qed.

Lemma find_piece_Ok b piece b' s :
  find_piece piece b = (b', Ok s) → b' = b ∧ located b piece s.
Proof.
  unfold find_piece. intros Hf.
  destruct (filter _ all_squares) as [|s' [|??]] eqn:Hfil; try done.
  injection Hf as <- <-. split; [done|].
  assert (Hmem : ∀ t, t ∈ [s'] ↔ b !! t = Some piece ∧ t ∈ all_squares).
  { intros t. rewrite <- Hfil.
    apply (list_elem_of_filter (λ u, b !! u = Some piece)). }
  destruct (proj1 (Hmem s')) as [Hs Hin]; [by apply list_elem_of_singleton|].
  repeat split; [by apply elem_of_all_squares|done|].
  intros t Ht Hbt. apply list_elem_of_singleton, Hmem.
  split; [done|by apply elem_of_all_squares].
Qed.

Lemma find_piece_absent b piece :
  absent b piece → find_piece piece b = (b, Raise PieceNotFoundError).
Proof.
  intros Habs. unfold find_piece.
  rewrite filter_none; [done|].
  intros t Ht. apply Habs. by apply elem_of_all_squares.
Qed.

Lemma located_singleton s piece : on_board s → located {[s := piece]} piece s.
Proof.
  intros Hon. repeat split; [done|apply lookup_singleton_eq|].
  intros t _ Ht. apply lookup_singleton_Some in Ht as [-> _]. done.
Qed.

(** ** Stepping pieces: knight and king *)

Section stepping.
Context (self : Piece) (b : Board) (s : Square).

Lemma hop_run d moves :
  hop self s d moves b = (b, Ok (moves ++ filter (λ t, on_board t ∧ can_land b (player self) t) [offset s d])).
Proof.
  destruct d as [dr dc]. unfold hop, offset; simpl.
  rewrite filter_cons, filter_nil.
  set (t := mkSquare (row s + dr) (col s + dc)).
  assert (Hreach : on_board t ∧ can_land b (player self) t ↔
            in_range (row s + dr) (col s + dc) = true ∧
            match b !! t with Some q => player q ≠ player self | None => True end)
    by done.
  destruct (in_range (row s + dr) (col s + dc)) eqn:Hin.
  - unfold bind, lift, Square_at, get_piece, ret. rewrite Hin. simpl. fold t.
    destruct (b !! t) as [q|] eqn:Hq.
    + destruct (decide (player q ≠ player self)) as [Hne|He].
      * by rewrite decide_True by (by apply Hreach).
      * rewrite decide_False; [by rewrite app_nil_r|].
        intros [_ ?]%Hreach. done.
    + by rewrite decide_True by (by apply Hreach).
  - unfold ret. rewrite decide_False; [by rewrite app_nil_r|].
    intros [? _]%Hreach. done.
Qed.

Lemma hops_run ds : ∀ moves,
  for_each ds (hop self s) moves b
  = (b, Ok (moves ++ filter (λ t, on_board t ∧ can_land b (player self) t) (offset s <$> ds))).
Proof.
  induction ds as [|d ds IH]; intros moves; simpl.
  - by rewrite app_nil_r.
  - unfold bind. rewrite hop_run, IH, <- (assoc_L (++)).
    by rewrite <- filter_app.
Qed.
End stepping.

Lemma stepping_run fuel self b s :
  stepping (kind self) → located b self s →
  get_available_moves fuel self b
  = (b, Ok (filter (λ t, on_board t ∧ can_land b (player self) t)
              (offset s <$> directions_of (kind self)))).
Proof.
  intros Hk Hloc. apply find_piece_located in Hloc.
  unfold get_available_moves.
  destruct Hk as [-> | ->]; simpl;
    unfold Knight_get_available_moves, King_get_available_moves, bind;
    rewrite Hloc; apply hops_run.
Qed.

(** C3.  A knight or king located at [s] gets exactly the squares [s+offset],
    one candidate per offset of its offset set and in the order of that set,
    that lie within [0,7]x[0,7] and are unoccupied or held by the opposing
    player.  The knight's offsets are the eight L-shaped vectors and the
    king's the eight non-zero unit vectors.  Alone on the board, a knight at
    (4,4) gets the eight squares (2,3),(2,5),(3,2),(3,6),(5,2),(5,6),(6,3),
    (6,5), a knight at (0,0) gets (1,2),(2,1), and a king at (4,4) gets its
    eight neighbours. *)
Theorem stepping_moves_exact :
  (∀ fuel self b s,
     stepping (kind self) → located b self s →
     get_available_moves fuel self b
     = (b, Ok (filter (λ t, on_board t ∧ can_land b (player self) t)
                 (offset s <$> directions_of (kind self)))))
  ∧ (∀ d, d ∈ directions_of Knight ↔
          (Z.abs d.1 = 1 ∧ Z.abs d.2 = 2) ∨ (Z.abs d.1 = 2 ∧ Z.abs d.2 = 1))
  ∧ (∀ d, d ∈ directions_of King ↔
          Z.abs d.1 ≤ 1 ∧ Z.abs d.2 ≤ 1 ∧ d ≠ (0, 0))
  ∧ NoDup (directions_of Knight) ∧ NoDup (directions_of King)
  ∧ (∀ fuel self, kind self = Knight →
       get_available_moves fuel self {[mkSquare 4 4 := self]}
       = ({[mkSquare 4 4 := self]},
          Ok [mkSquare 2 3; mkSquare 2 5; mkSquare 3 2; mkSquare 3 6;
              mkSquare 5 2; mkSquare 5 6; mkSquare 6 3; mkSquare 6 5]))
  ∧ (∀ fuel self, kind self = Knight →
       get_available_moves fuel self {[mkSquare 0 0 := self]}
       = ({[mkSquare 0 0 := self]}, Ok [mkSquare 1 2; mkSquare 2 1]))
  ∧ (∀ fuel self, kind self = King →
       get_available_moves fuel self {[mkSquare 4 4 := self]}
       = ({[mkSquare 4 4 := self]},
          Ok [mkSquare 3 3; mkSquare 3 4; mkSquare 3 5; mkSquare 4 3;
              mkSquare 4 5; mkSquare 5 3; mkSquare 5 4; mkSquare 5 5])).
Proof.
  split; [apply stepping_run|].
  split.
  { intros [dr dc]. simpl. unfold jumps. rewrite !elem_of_cons, elem_of_nil.
    split; [intros H; repeat destruct H as [H|H]; try done; simplify_eq/=; lia|].
    intros H.
    assert (Hcases : (dr = 1 ∨ dr = -1 ∨ dr = 2 ∨ dr = -2) ∧
                     (dc = 1 ∨ dc = -1 ∨ dc = 2 ∨ dc = -2)) by lia.
    destruct Hcases as [Hr Hc].
    repeat destruct Hr as [Hr|Hr]; repeat destruct Hc as [Hc|Hc]; subst;
      try (exfalso; lia); tauto. }
  split.
  { intros [dr dc]. simpl. unfold King_directions. rewrite !elem_of_cons, elem_of_nil.
    split; [intros H; repeat destruct H as [H|H]; try done; simplify_eq/=;
            (split; [lia|split; [lia|done]])|].
    intros (Hr & Hc & Hne).
    assert (Hcases : (dr = 1 ∨ dr = -1 ∨ dr = 0) ∧ (dc = 1 ∨ dc = -1 ∨ dc = 0)) by lia.
    destruct Hcases as [Hr' Hc'].
    repeat destruct Hr' as [Hr'|Hr']; repeat destruct Hc' as [Hc'|Hc']; subst;
      try done; tauto. }
  split; [apply (bool_decide_unpack _); by vm_compute|].
  split; [apply (bool_decide_unpack _); by vm_compute|].
  assert (Hat : ∀ fuel self s, stepping (kind self) → on_board s →
            get_available_moves fuel self {[s := self]}
            = ({[s := self]},
               Ok (filter (λ t, on_board t ∧ can_land {[s := self]} (player self) t)
                     (offset s <$> directions_of (kind self))))).
  { intros fuel self s Hk Hon. by apply stepping_run, located_singleton. }
  repeat split; intros fuel self Hk;
    (rewrite Hat; [|unfold stepping; rewrite Hk; tauto|done]);
    rewrite Hk; f_equal.
Qed.

(** ** Pawns *)

Lemma pawn_direction_cases pl :
  (if decide (pl = WHITE) then (1, 1) else (-1, 6))
  = (pawn_direction pl, pawn_starting_row pl).
Proof. by destruct pl. Qed.

Lemma Pawn_run self b s :
  located b self s →
  on_board (mkSquare (row s + pawn_direction (player self)) (col s)) →
  Pawn_get_available_moves self b
  = (b, Ok (match b !! mkSquare (row s + pawn_direction (player self)) (col s) with
            | Some _ => []
            | None =>
                mkSquare (row s + pawn_direction (player self)) (col s) ::
                if decide (row s = pawn_starting_row (player self)) then
                  match b !! mkSquare (row s + 2 * pawn_direction (player self)) (col s) with
                  | Some _ => []
                  | None => [mkSquare (row s + 2 * pawn_direction (player self)) (col s)]
                  end
                else []
            end)).
Proof.
  intros Hloc Hone. pose proof Hloc as (Hs & _ & _).
  apply find_piece_located in Hloc.
  unfold on_board in Hone; simpl in Hone.
  unfold Pawn_get_available_moves, bind. rewrite Hloc, pawn_direction_cases.
  unfold lift, Square_at, get_piece, ret. rewrite Hone.
  destruct (b !! mkSquare (row s + _) _) as [q|]; [done|].
  destruct (decide (row s = _)) as [Hrow|]; [|done].
  assert (Htwo : in_range (row s + 2 * pawn_direction (player self)) (col s) = true).
  { apply in_range_spec. apply on_board_spec in Hs.
    destruct (player self); simpl in *; lia. }
  rewrite Htwo. by destruct (b !! mkSquare (row s + 2 * _) _).
Qed.

Lemma Pawn_off_board self b s :
  located b self s →
  ¬ on_board (mkSquare (row s + pawn_direction (player self)) (col s)) →
  Pawn_get_available_moves self b = (b, Raise OutOfBoundsError).
Proof.
  intros Hloc Hone. apply find_piece_located in Hloc.
  unfold Pawn_get_available_moves, bind. rewrite Hloc, pawn_direction_cases.
  unfold lift, Square_at. unfold on_board in Hone; simpl in Hone.
  by destruct (in_range _ _).
Qed.

(** The pawn rule off the last row.  A pawn moves towards increasing rows for
    WHITE and decreasing rows for BLACK.  Whenever the square one row ahead is
    a square of the board,
    the call returns a list in which that square occurs iff it is unoccupied,
    the square two rows ahead occurs iff the one-step square is unoccupied,
    the pawn stands on its nominal starting row (1 for WHITE, 6 for BLACK)
    and the two-step square is unoccupied too, and nothing else occurs: in
    particular no diagonal capture. *)
Theorem pawn_moves fuel self b s :
  kind self = Pawn → located b self s →
  let direction := match player self with WHITE => 1 | BLACK => -1 end in
  let starting_row := match player self with WHITE => 1 | BLACK => 6 end in
  let one_forward := mkSquare (row s + direction) (col s) in
  let two_forward := mkSquare (row s + 2 * direction) (col s) in
  on_board one_forward →
  ∃ moves,
    get_available_moves fuel self b = (b, Ok moves) ∧
    (one_forward ∈ moves ↔ b !! one_forward = None) ∧
    (two_forward ∈ moves ↔
       b !! one_forward = None ∧ row s = starting_row ∧ b !! two_forward = None) ∧
    (∀ t, t ∈ moves → t = one_forward ∨ t = two_forward).
Proof.
  intros Hk Hloc direction starting_row one_forward two_forward Hone.
  change direction with (pawn_direction (player self)) in *.
  change starting_row with (pawn_starting_row (player self)) in *.
  assert (Hne : one_forward ≠ two_forward).
  { unfold one_forward, two_forward. intros [=]. destruct (player self); simpl in *; lia. }
  eexists. split.
  { unfold get_available_moves. rewrite Hk. by apply Pawn_run. }
  fold one_forward two_forward.
  destruct (b !! one_forward) as [q|] eqn:H1;
    [|destruct (decide (row s = _)) as [Hrow|Hrow];
      [destruct (b !! two_forward) as [q|] eqn:H2|]];
    (split; [|split; [|intros t]]);
    rewrite ?elem_of_cons, ?elem_of_nil; intuition congruence.
Qed.

Lemma pawn_moves_witness :
  ∃ moves,
    get_available_moves 8 (mkPiece 0 Pawn WHITE) {[mkSquare 1 4 := mkPiece 0 Pawn WHITE]}
    = ({[mkSquare 1 4 := mkPiece 0 Pawn WHITE]}, Ok moves) ∧
    (mkSquare 2 4 ∈ moves ↔
       ({[mkSquare 1 4 := mkPiece 0 Pawn WHITE]} : Board) !! mkSquare 2 4 = None) ∧
    (mkSquare 3 4 ∈ moves ↔
       ({[mkSquare 1 4 := mkPiece 0 Pawn WHITE]} : Board) !! mkSquare 2 4 = None ∧
       1 = 1 ∧
       ({[mkSquare 1 4 := mkPiece 0 Pawn WHITE]} : Board) !! mkSquare 3 4 = None) ∧
    (∀ t, t ∈ moves → t = mkSquare 2 4 ∨ t = mkSquare 3 4).
Proof.
  apply (pawn_moves 8 (mkPiece 0 Pawn WHITE) {[mkSquare 1 4 := mkPiece 0 Pawn WHITE]}
           (mkSquare 1 4)).
  - reflexivity.
  - apply located_singleton. reflexivity.
  - reflexivity.
Defined.

(** C2 fails on the last row: for a white pawn on (7,4), alone on the board,
    the call raises while building the square one row ahead, so there is no
    result in which that square, or any square, occurs; likewise for a black
    pawn on (0,4).  On every other row the rule is the one [pawn_moves]
    proves. *)
Theorem pawn_rule_fails_on_last_row :
  located {[mkSquare 7 4 := mkPiece 0 Pawn WHITE]} (mkPiece 0 Pawn WHITE) (mkSquare 7 4)
  ∧ ({[mkSquare 7 4 := mkPiece 0 Pawn WHITE]} : Board) !! mkSquare (7 + 1) 4 = None
  ∧ (∀ fuel,
       ¬ ∃ moves,
           get_available_moves fuel (mkPiece 0 Pawn WHITE)
             {[mkSquare 7 4 := mkPiece 0 Pawn WHITE]}
           = ({[mkSquare 7 4 := mkPiece 0 Pawn WHITE]}, Ok moves)
           ∧ (mkSquare (7 + 1) 4 ∈ moves ↔
              ({[mkSquare 7 4 := mkPiece 0 Pawn WHITE]} : Board)
                !! mkSquare (7 + 1) 4 = None))
  ∧ located {[mkSquare 0 4 := mkPiece 0 Pawn BLACK]} (mkPiece 0 Pawn BLACK) (mkSquare 0 4)
  ∧ (∀ fuel,
       ¬ ∃ moves,
           get_available_moves fuel (mkPiece 0 Pawn BLACK)
             {[mkSquare 0 4 := mkPiece 0 Pawn BLACK]}
           = ({[mkSquare 0 4 := mkPiece 0 Pawn BLACK]}, Ok moves)
           ∧ (mkSquare (0 + -1) 4 ∈ moves ↔
              ({[mkSquare 0 4 := mkPiece 0 Pawn BLACK]} : Board)
                !! mkSquare (0 + -1) 4 = None)).
Proof.
  assert (Hwhite : located {[mkSquare 7 4 := mkPiece 0 Pawn WHITE]}
                     (mkPiece 0 Pawn WHITE) (mkSquare 7 4))
    by (by apply located_singleton).
  assert (Hblack : located {[mkSquare 0 4 := mkPiece 0 Pawn BLACK]}
                     (mkPiece 0 Pawn BLACK) (mkSquare 0 4))
    by (by apply located_singleton).
  split; [done|]. split; [done|]. split; [|split; [done|]].
  - intros fuel (moves & Hrun & _). unfold get_available_moves in Hrun. simpl in Hrun.
    rewrite (Pawn_off_board _ _ _ Hwhite) in Hrun; [discriminate Hrun|done].
  - intros fuel (moves & Hrun & _). unfold get_available_moves in Hrun. simpl in Hrun.
    rewrite (Pawn_off_board _ _ _ Hblack) in Hrun; [discriminate Hrun|done].
Qed.

Lemma stepping_moves_exact_witness :
  get_available_moves 0 (mkPiece 1 King BLACK)
    (<[mkSquare 0 1 := mkPiece 2 Rook WHITE]>
       (<[mkSquare 1 0 := mkPiece 3 Pawn BLACK]>
          {[mkSquare 0 0 := mkPiece 1 King BLACK]}))
  = (<[mkSquare 0 1 := mkPiece 2 Rook WHITE]>
       (<[mkSquare 1 0 := mkPiece 3 Pawn BLACK]>
          {[mkSquare 0 0 := mkPiece 1 King BLACK]}),
     Ok [mkSquare 0 1; mkSquare 1 1]).
Proof.
  rewrite (proj1 stepping_moves_exact 0%nat (mkPiece 1 King BLACK)
             (<[mkSquare 0 1 := mkPiece 2 Rook WHITE]>
                (<[mkSquare 1 0 := mkPiece 3 Pawn BLACK]>
                   {[mkSquare 0 0 := mkPiece 1 King BLACK]}))
             (mkSquare 0 0)).
  - vm_compute. reflexivity.
  - right. reflexivity.
  - eapply find_piece_Ok. vm_compute. reflexivity.
Defined.

(** C5 fails for pawns: the generator builds the square one row ahead with
    no bounds test, so on the last row in its direction of travel the
    construction of the square raises.  Evaluated for a white pawn on (7,4)
    and a black pawn on (0,4), each alone on the board. *)
Theorem pawn_on_last_row_raises :
  located {[mkSquare 7 4 := mkPiece 0 Pawn WHITE]} (mkPiece 0 Pawn WHITE) (mkSquare 7 4)
  ∧ get_available_moves 8 (mkPiece 0 Pawn WHITE) {[mkSquare 7 4 := mkPiece 0 Pawn WHITE]}
    = ({[mkSquare 7 4 := mkPiece 0 Pawn WHITE]}, Raise OutOfBoundsError)
  ∧ located {[mkSquare 0 4 := mkPiece 0 Pawn BLACK]} (mkPiece 0 Pawn BLACK) (mkSquare 0 4)
  ∧ get_available_moves 8 (mkPiece 0 Pawn BLACK) {[mkSquare 0 4 := mkPiece 0 Pawn BLACK]}
    = ({[mkSquare 0 4 := mkPiece 0 Pawn BLACK]}, Raise OutOfBoundsError).
Proof.
  repeat split; try (by apply located_singleton);
    apply Pawn_off_board; by apply located_singleton.
Qed.

(** ** Pieces that are not on the board, and [move_to] *)

(** C6.  For a piece that is absent from the board, [find_piece] raises
    [PieceNotFoundError], and so do [get_available_moves] and [move_to],
    which call it first; the board is left as it was. *)
Theorem absent_piece_not_found fuel self b new_square :
  absent b self →
  find_piece self b = (b, Raise PieceNotFoundError)
  ∧ get_available_moves fuel self b = (b, Raise PieceNotFoundError)
  ∧ move_to self new_square b = (b, Raise PieceNotFoundError).
Proof.
  intros Habs%find_piece_absent. split; [done|]. split.
  - unfold get_available_moves.
    destruct (kind self);
      unfold Pawn_get_available_moves, Knight_get_available_moves,
        Bishop_get_available_moves, Rook_get_available_moves,
        Queen_get_available_moves, King_get_available_moves, bind;
      by rewrite Habs.
  - unfold move_to, bind. by rewrite Habs.
Qed.

Lemma absent_piece_not_found_witness :
  find_piece (mkPiece 1 Queen WHITE) {[mkSquare 3 3 := mkPiece 2 Queen WHITE]}
  = ({[mkSquare 3 3 := mkPiece 2 Queen WHITE]}, Raise PieceNotFoundError)
  ∧ get_available_moves 8 (mkPiece 1 Queen WHITE) {[mkSquare 3 3 := mkPiece 2 Queen WHITE]}
    = ({[mkSquare 3 3 := mkPiece 2 Queen WHITE]}, Raise PieceNotFoundError)
  ∧ move_to (mkPiece 1 Queen WHITE) (mkSquare 4 4) {[mkSquare 3 3 := mkPiece 2 Queen WHITE]}
    = ({[mkSquare 3 3 := mkPiece 2 Queen WHITE]}, Raise PieceNotFoundError).
Proof.
  apply (absent_piece_not_found 8 (mkPiece 1 Queen WHITE)
           {[mkSquare 3 3 := mkPiece 2 Queen WHITE]} (mkSquare 4 4)).
  intros t _ Ht. apply lookup_singleton_Some in Ht as [_ Ht]. discriminate Ht.
Defined.

(** C7.  For a piece located at [s] and any target square whatsoever,
    [move_to] is the board's [move_piece] from [s] to the target: it succeeds,
    the target then holds the piece, [s] is cleared, and every other square
    keeps its occupant.  No step consults [get_available_moves]; the target
    is not required to be one of the generated moves. *)
Theorem move_to_unconditional self b s new_square :
  located b self s →
  move_to self new_square b = move_piece s new_square b
  ∧ (move_to self new_square b).2 = Ok tt
  ∧ (move_to self new_square b).1 !! new_square = Some self
  ∧ (s ≠ new_square → (move_to self new_square b).1 !! s = None)
  ∧ (∀ u, u ≠ s → u ≠ new_square → (move_to self new_square b).1 !! u = b !! u).
Proof.
  intros Hloc. pose proof Hloc as (_ & Hs & _).
  apply find_piece_located in Hloc.
  assert (Hrun : move_to self new_square b = move_piece s new_square b).
  { unfold move_to, bind. by rewrite Hloc. }
  rewrite Hrun. unfold move_piece; simpl. rewrite Hs.
  split; [done|]. split; [done|]. split; [|split].
  - by rewrite lookup_partial_alter_eq.
  - intros Hne. by rewrite lookup_partial_alter_ne, lookup_delete_eq.
  - intros u Hus Hut. by rewrite lookup_partial_alter_ne, lookup_delete_ne.
Qed.

Lemma move_to_unconditional_witness :
  move_to (mkPiece 0 Pawn WHITE) (mkSquare 5 7) {[mkSquare 1 4 := mkPiece 0 Pawn WHITE]}
  = move_piece (mkSquare 1 4) (mkSquare 5 7) {[mkSquare 1 4 := mkPiece 0 Pawn WHITE]}
  ∧ (move_to (mkPiece 0 Pawn WHITE) (mkSquare 5 7)
       {[mkSquare 1 4 := mkPiece 0 Pawn WHITE]}).2 = Ok tt
  ∧ (move_to (mkPiece 0 Pawn WHITE) (mkSquare 5 7)
       {[mkSquare 1 4 := mkPiece 0 Pawn WHITE]}).1 !! mkSquare 5 7
    = Some (mkPiece 0 Pawn WHITE)
  ∧ (mkSquare 1 4 ≠ mkSquare 5 7 →
     (move_to (mkPiece 0 Pawn WHITE) (mkSquare 5 7)
        {[mkSquare 1 4 := mkPiece 0 Pawn WHITE]}).1 !! mkSquare 1 4 = None)
  ∧ (∀ u, u ≠ mkSquare 1 4 → u ≠ mkSquare 5 7 →
     (move_to (mkPiece 0 Pawn WHITE) (mkSquare 5 7)
        {[mkSquare 1 4 := mkPiece 0 Pawn WHITE]}).1 !! u
     = ({[mkSquare 1 4 := mkPiece 0 Pawn WHITE]} : Board) !! u).
Proof.
  apply (move_to_unconditional (mkPiece 0 Pawn WHITE)
           {[mkSquare 1 4 := mkPiece 0 Pawn WHITE]} (mkSquare 1 4) (mkSquare 5 7)).
  apply located_singleton. reflexivity.
Defined.

(** A target outside the generated moves is executed all the same: the white
    pawn of the test suite, on (1,4), is offered (2,4) and (3,4) only, and
    [move_to] still takes it to (5,7). *)
Example move_to_ungenerated_target :
  get_available_moves 8 (mkPiece 0 Pawn WHITE) {[mkSquare 1 4 := mkPiece 0 Pawn WHITE]}
  = ({[mkSquare 1 4 := mkPiece 0 Pawn WHITE]}, Ok [mkSquare 2 4; mkSquare 3 4])
  ∧ move_to (mkPiece 0 Pawn WHITE) (mkSquare 5 7) {[mkSquare 1 4 := mkPiece 0 Pawn WHITE]}
    = ({[mkSquare 5 7 := mkPiece 0 Pawn WHITE]}, Ok tt).
Proof. split; vm_compute; reflexivity. Qed.

(** ** Sliding pieces: bishop, rook and queen *)

Lemma sliding_directions k d :
  sliding k → d ∈ directions_of k → d ∈ Queen_directions.
Proof.
  intros [-> | [-> | ->]]; simpl; unfold Bishop_directions, Rook_directions, Queen_directions;
    rewrite !elem_of_cons, !elem_of_nil; tauto.
Qed.

Lemma shift_0 s d : shift s d 0 = s.
Proof. destruct s as [r c]. unfold shift; simpl. f_equal; lia. Qed.

Lemma steps_bounded s d k :
  d ∈ Queen_directions → on_board s → 0 ≤ k → on_board (shift s d k) → k ≤ 7.
Proof.
  unfold Queen_directions. rewrite !elem_of_cons, elem_of_nil, !on_board_spec.
  intros Hd; repeat destruct Hd as [Hd|Hd]; try done; subst d; simpl; lia.
Qed.

Lemma shift_ne s d k : d ∈ Queen_directions → 1 ≤ k → shift s d k ≠ s.
Proof.
  unfold Queen_directions. rewrite !elem_of_cons, elem_of_nil.
  destruct s as [r c].
  intros Hd; repeat destruct Hd as [Hd|Hd]; try done; subst d;
    unfold shift; simpl; intros Hk [=]; lia.
Qed.

Section sliding.
Context (self : Piece) (b : Board) (s : Square) (d : Z * Z).
Hypothesis Hs : on_board s.
Hypothesis Hd : d ∈ Queen_directions.

Lemma walk_run fuel : ∀ k moves,
  0 ≤ k → on_board (shift s d k) → 8 ≤ Z.of_nat fuel + k →
  ∃ n,
    walk fuel self d.1 d.2 (row (shift s d k)) (col (shift s d k)) moves b
    = (b, Ok (moves ++ (shift s d <$> seqZ (k + 1) n)))
    ∧ 0 ≤ n
    ∧ (∀ j, k < j ≤ k + n → on_board (shift s d j))
    ∧ (∀ j, k < j < k + n → b !! shift s d j = None)
    ∧ (0 < n → can_land b (player self) (shift s d (k + n)))
    ∧ (¬ on_board (shift s d (k + n + 1))
       ∨ (0 < n ∧ is_Some (b !! shift s d (k + n)))
       ∨ (∃ q, b !! shift s d (k + n + 1) = Some q ∧ player q = player self)).
Proof.
  induction fuel as [|fuel IH]; intros k moves Hk Hon Hfuel.
  { pose proof (steps_bounded s d k Hd Hs Hk Hon). lia. }
  cbn [walk].
  assert (Hr : row (shift s d k) + d.1 = row (shift s d (k + 1))) by (simpl; lia).
  assert (Hc : col (shift s d k) + d.2 = col (shift s d (k + 1))) by (simpl; lia).
  rewrite Hr, Hc.
  destruct (in_range (row (shift s d (k + 1))) (col (shift s d (k + 1)))) eqn:Hin;
    cbn [negb].
  - unfold bind, lift, Square_at, get_piece. rewrite Hin.
    change (mkSquare (row (shift s d (k + 1))) (col (shift s d (k + 1))))
      with (shift s d (k + 1)).
    destruct (b !! shift s d (k + 1)) as [q|] eqn:Hq.
    + destruct (decide (player q ≠ player self)) as [Hne|Heq].
      * exists 1. split; [done|]. split; [lia|].
        split; [intros j Hj; by replace j with (k + 1) by lia|].
        split; [intros j Hj; lia|].
        split; [intros _; unfold can_land; by rewrite Hq|].
        right; left. split; [lia|]. by rewrite Hq.
      * exists 0. rewrite app_nil_r. split; [done|]. split; [lia|].
        split; [intros j Hj; lia|]. split; [intros j Hj; lia|].
        split; [lia|]. right; right. exists q.
        replace (k + 0 + 1) with (k + 1) by lia.
        split; [done|]. by destruct (decide (player q = player self)); [|destruct Heq].
    + destruct (IH (k + 1) (moves ++ [shift s d (k + 1)])) as
        (n & Hrun & Hn & Hboard & Hempty & Hland & Hstop); [lia|done|lia|].
      exists (n + 1). split.
      { rewrite Hrun, <- (assoc_L (++)). do 2 f_equal.
        rewrite (seqZ_cons (k + 1) (n + 1)) by lia. rewrite fmap_cons.
        replace (Z.succ (k + 1)) with (k + 1 + 1) by lia.
        by replace (Z.pred (n + 1)) with n by lia. }
      split; [lia|].
      split. { intros j Hj. destruct (decide (j = k + 1)) as [->|]; [done|]. apply Hboard; lia. }
      split. { intros j Hj. destruct (decide (j = k + 1)) as [->|]; [done|]. apply Hempty; lia. }
      split.
      { intros _. destruct (decide (0 < n)) as [Hpos|Hzero].
        - replace (k + (n + 1)) with (k + 1 + n) by lia. by apply Hland.
        - replace (k + (n + 1)) with (k + 1) by lia. unfold can_land. by rewrite Hq. }
      replace (k + (n + 1) + 1) with (k + 1 + n + 1) by lia.
      replace (k + (n + 1)) with (k + 1 + n) by lia.
      destruct Hstop as [?|[[? ?]|?]]; [by left| |by right; right].
      right; left. split; [lia|done].
  - exists 0. rewrite app_nil_r. unfold ret. split; [done|]. split; [lia|].
    split; [intros j Hj; lia|]. split; [intros j Hj; lia|].
    split; [lia|]. left. replace (k + 0 + 1) with (k + 1) by lia.
    unfold on_board. by rewrite Hin.
Qed.

Lemma slide_run fuel moves :
  (8 ≤ fuel)%nat →
  ∃ ray, slide fuel self s d moves b = (b, Ok (moves ++ ray))
         ∧ ray_of b (player self) s d ray.
Proof.
  intros Hfuel.
  destruct (walk_run fuel 0 moves) as (n & Hrun & Hn & Hboard & Hempty & Hland & Hstop);
    [lia|by rewrite shift_0|lia|].
  rewrite shift_0 in Hrun.
  exists (shift s d <$> seqZ 1 n). split.
  - unfold slide. by destruct d.
  - exists n. split; [done|]. split; [done|].
    split; [intros k Hk; apply Hboard; lia|].
    split; [intros k Hk; apply Hempty; lia|].
    split; [done|]. done.
Qed.
End sliding.

Lemma slides_run fuel self b s ds :
  (8 ≤ fuel)%nat → on_board s → (∀ d, d ∈ ds → d ∈ Queen_directions) →
  ∀ moves, ∃ rays,
    for_each ds (slide fuel self s) moves b = (b, Ok (moves ++ concat rays))
    ∧ Forall2 (ray_of b (player self) s) ds rays.
Proof.
  intros Hfuel Hs. induction ds as [|d ds IH]; intros Hds moves.
  - exists []. simpl. by rewrite app_nil_r.
  - destruct (slide_run self b s d Hs (Hds d ltac:(left)) fuel moves Hfuel)
      as (ray & Hray & Hspec).
    destruct (IH (λ d' Hd', Hds d' ltac:(by right)) (moves ++ ray)) as (rays & Hrays & Hall).
    exists (ray :: rays). split; [|by constructor].
    simpl. unfold bind. by rewrite Hray, Hrays, <- (assoc_L (++)).
Qed.

Lemma sliding_run fuel self b s :
  (8 ≤ fuel)%nat → sliding (kind self) → located b self s →
  ∃ rays,
    get_available_moves fuel self b = (b, Ok (concat rays))
    ∧ Forall2 (ray_of b (player self) s) (directions_of (kind self)) rays.
Proof.
  intros Hfuel Hk Hloc. pose proof Hloc as (Hs & _).
  apply find_piece_located in Hloc.
  destruct (slides_run fuel self b s (directions_of (kind self)) Hfuel Hs
              (λ d, sliding_directions _ d Hk) []) as (rays & Hrun & Hall).
  exists rays. split; [|done].
  change ([] ++ concat rays) with (concat rays) in Hrun. rewrite <- Hrun.
  unfold get_available_moves.
  destruct Hk as [Hk|[Hk|Hk]]; rewrite Hk; simpl;
    unfold Bishop_get_available_moves, Rook_get_available_moves,
      Queen_get_available_moves, bind; by rewrite Hloc.
Qed.

(** C1.  A bishop, rook or queen located at [s] gets, direction by direction
    in the order of its direction set, the ray of that direction.  The ray
    lists the squares [s+d], [s+2d], ... nearest first.  Every unoccupied
    square is emitted and the walk goes on; a square held by the opponent is
    emitted and nothing after it; a square held by the same player is not
    emitted, nor anything after it; the walk also ends at the edge of the
    board.  Eight iterations of the loop suffice in every direction. *)
Theorem sliding_moves_rays fuel self b s :
  (8 ≤ fuel)%nat → sliding (kind self) → located b self s →
  ∃ rays,
    get_available_moves fuel self b = (b, Ok (concat rays))
    ∧ Forall2
        (λ d ray, ∃ n,
           ray = shift s d <$> seqZ 1 n
           ∧ 0 ≤ n
           ∧ (∀ k, 1 ≤ k ≤ n → on_board (shift s d k))
           ∧ (∀ k, 1 ≤ k < n → b !! shift s d k = None)
           ∧ (0 < n →
              b !! shift s d n = None
              ∨ ∃ q, b !! shift s d n = Some q ∧ player q ≠ player self)
           ∧ (¬ on_board (shift s d (n + 1))
              ∨ (0 < n ∧ ∃ q, b !! shift s d n = Some q ∧ player q ≠ player self)
              ∨ (∃ q, b !! shift s d (n + 1) = Some q ∧ player q = player self)))
        (directions_of (kind self)) rays.
Proof.
  intros Hfuel Hk Hloc.
  destruct (sliding_run fuel self b s Hfuel Hk Hloc) as (rays & Hrun & Hall).
  exists rays. split; [done|].
  eapply Forall2_impl; [exact Hall|].
  intros d ray (n & -> & Hn & Hboard & Hempty & Hland & Hstop).
  exists n. split; [done|]. split; [done|]. split; [done|]. split; [done|].
  assert (Hland' : 0 < n →
            b !! shift s d n = None
            ∨ ∃ q, b !! shift s d n = Some q ∧ player q ≠ player self).
  { intros Hpos. specialize (Hland Hpos). unfold can_land in Hland.
    destruct (b !! shift s d n) as [q|]; [right; by exists q|by left]. }
  split; [done|].
  destruct Hstop as [?|[[Hpos [q Hq]]|?]]; [by left| |by right; right].
  right; left. split; [done|].
  destruct (Hland' Hpos) as [Hnone|?]; [congruence|done].
Qed.

Lemma sliding_moves_rays_witness :
  ∃ rays,
    get_available_moves 8 (mkPiece 0 Rook WHITE)
      (<[mkSquare 4 6 := mkPiece 1 Pawn BLACK]> {[mkSquare 4 4 := mkPiece 0 Rook WHITE]})
    = (<[mkSquare 4 6 := mkPiece 1 Pawn BLACK]> {[mkSquare 4 4 := mkPiece 0 Rook WHITE]},
       Ok (concat rays))
    ∧ Forall2
        (λ d ray, ∃ n,
           ray = shift (mkSquare 4 4) d <$> seqZ 1 n
           ∧ 0 ≤ n
           ∧ (∀ k, 1 ≤ k ≤ n → on_board (shift (mkSquare 4 4) d k))
           ∧ (∀ k, 1 ≤ k < n →
              (<[mkSquare 4 6 := mkPiece 1 Pawn BLACK]>
                 {[mkSquare 4 4 := mkPiece 0 Rook WHITE]} : Board)
                !! shift (mkSquare 4 4) d k = None)
           ∧ (0 < n →
              (<[mkSquare 4 6 := mkPiece 1 Pawn BLACK]>
                 {[mkSquare 4 4 := mkPiece 0 Rook WHITE]} : Board)
                !! shift (mkSquare 4 4) d n = None
              ∨ ∃ q, (<[mkSquare 4 6 := mkPiece 1 Pawn BLACK]>
                        {[mkSquare 4 4 := mkPiece 0 Rook WHITE]} : Board)
                       !! shift (mkSquare 4 4) d n = Some q
                     ∧ player q ≠ WHITE)
           ∧ (¬ on_board (shift (mkSquare 4 4) d (n + 1))
              ∨ (0 < n ∧ ∃ q, (<[mkSquare 4 6 := mkPiece 1 Pawn BLACK]>
                                 {[mkSquare 4 4 := mkPiece 0 Rook WHITE]} : Board)
                                !! shift (mkSquare 4 4) d n = Some q
                              ∧ player q ≠ WHITE)
              ∨ (∃ q, (<[mkSquare 4 6 := mkPiece 1 Pawn BLACK]>
                         {[mkSquare 4 4 := mkPiece 0 Rook WHITE]} : Board)
                        !! shift (mkSquare 4 4) d (n + 1) = Some q
                      ∧ player q = WHITE)))
        [(-1, 0); (1, 0); (0, -1); (0, 1)] rays.
Proof.
  apply (sliding_moves_rays 8 (mkPiece 0 Rook WHITE)
           (<[mkSquare 4 6 := mkPiece 1 Pawn BLACK]> {[mkSquare 4 4 := mkPiece 0 Rook WHITE]})
           (mkSquare 4 4)).
  - simpl. lia.
  - right; left. reflexivity.
  - eapply find_piece_Ok. vm_compute. reflexivity.
Defined.

(** The stopping point of a ray is determined by the board. *)
Lemma ray_stops_at_le b pl s d n1 n2 :
  ray_stops_at b pl s d n1 → ray_stops_at b pl s d n2 → n2 ≤ n1.
Proof.
  intros (Hn1 & Hboard1 & Hempty1 & Hland1 & Hstop1)
         (Hn2 & Hboard2 & Hempty2 & Hland2 & Hstop2).
  destruct (decide (n2 ≤ n1)) as [|Hlt]; [done|]. exfalso.
  destruct Hstop1 as [Hoff|[[Hpos [q Hq]]|(q & Hq & Hpl)]].
  - apply Hoff, Hboard2. lia.
  - rewrite Hempty2 in Hq by lia. done.
  - destruct (decide (n1 + 1 = n2)) as [<-|Hne].
    + specialize (Hland2 ltac:(lia)). unfold can_land in Hland2.
      rewrite Hq in Hland2. done.
    + rewrite Hempty2 in Hq by lia. done.
Qed.

Lemma ray_stops_at_ext b b' pl s d n :
  d ∈ Queen_directions → (∀ t, t ≠ s → b' !! t = b !! t) →
  ray_stops_at b' pl s d n → ray_stops_at b pl s d n.
Proof.
  intros Hd Hagree (Hn & Hboard & Hempty & Hland & Hstop).
  assert (Hlk : ∀ k, 1 ≤ k → b' !! shift s d k = b !! shift s d k).
  { intros k Hk. apply Hagree. by apply shift_ne. }
  split; [done|]. split; [done|].
  split. { intros k Hk. rewrite <- Hlk by lia. by apply Hempty. }
  split. { intros Hpos. unfold can_land. rewrite <- Hlk by lia. by apply Hland. }
  destruct Hstop as [?|[[? ?]|?]]; [by left| |].
  - right; left. split; [done|]. by rewrite <- Hlk by lia.
  - right; right. by rewrite <- Hlk by lia.
Qed.

Lemma ray_of_agree b b' pl s d ray ray' :
  d ∈ Queen_directions → (∀ t, t ≠ s → b' !! t = b !! t) →
  ray_of b pl s d ray → ray_of b' pl s d ray' → ray = ray'.
Proof.
  intros Hd Hagree (n & -> & Hn) (n' & -> & Hn').
  apply (ray_stops_at_ext b b') in Hn'; [|done..].
  pose proof (ray_stops_at_le _ _ _ _ _ _ Hn Hn').
  pose proof (ray_stops_at_le _ _ _ _ _ _ Hn' Hn).
  by replace n' with n by lia.
Qed.

Lemma rays_agree b b' pl s ds : ∀ rays rays',
  (∀ d, d ∈ ds → d ∈ Queen_directions) → (∀ t, t ≠ s → b' !! t = b !! t) →
  Forall2 (ray_of b pl s) ds rays → Forall2 (ray_of b' pl s) ds rays' →
  rays = rays'.
Proof.
  induction ds as [|d ds IH]; intros rays rays' Hds Hagree H1 H2.
  - apply Forall2_nil_inv_l in H1, H2. by subst.
  - apply Forall2_cons_inv_l in H1 as (ray & rays1 & Hray & Hrays & ->).
    apply Forall2_cons_inv_l in H2 as (ray' & rays1' & Hray' & Hrays' & ->).
    f_equal.
    + eapply ray_of_agree; [|exact Hagree|exact Hray|exact Hray']. apply Hds. by left.
    + apply IH; [|done..]. intros d' Hd'. apply Hds. by right.
Qed.

(** C4.  With a queen located at [s], put a rook of the same player on [s]
    instead, and likewise a bishop of the same player.  The queen's moves are
    the rook's moves followed by the bishop's moves, so the three sets of
    squares satisfy queen = rook ∪ bishop. *)
Theorem queen_is_rook_and_bishop fuel queen rook bishop b s :
  (8 ≤ fuel)%nat →
  kind queen = Queen → kind rook = Rook → kind bishop = Bishop →
  player rook = player queen → player bishop = player queen →
  located b queen s →
  located (<[s := rook]> b) rook s →
  located (<[s := bishop]> b) bishop s →
  ∃ queen_moves rook_moves bishop_moves,
    get_available_moves fuel queen b = (b, Ok queen_moves)
    ∧ get_available_moves fuel rook (<[s := rook]> b) = (<[s := rook]> b, Ok rook_moves)
    ∧ get_available_moves fuel bishop (<[s := bishop]> b)
      = (<[s := bishop]> b, Ok bishop_moves)
    ∧ queen_moves = rook_moves ++ bishop_moves
    ∧ (∀ t, t ∈ queen_moves ↔ t ∈ rook_moves ∨ t ∈ bishop_moves).
Proof.
  intros Hfuel Hq Hr Hb Hpr Hpb Hlq Hlr Hlb.
  destruct (sliding_run fuel queen b s) as (rq & Hrunq & Hallq);
    [done|unfold sliding; rewrite Hq; tauto|done|].
  destruct (sliding_run fuel rook (<[s := rook]> b) s) as (rr & Hrunr & Hallr);
    [done|unfold sliding; rewrite Hr; tauto|done|].
  destruct (sliding_run fuel bishop (<[s := bishop]> b) s) as (rb & Hrunb & Hallb);
    [done|unfold sliding; rewrite Hb; tauto|done|].
  rewrite Hq in Hallq. rewrite Hr, Hpr in Hallr. rewrite Hb, Hpb in Hallb.
  change (directions_of Queen) with (directions_of Rook ++ directions_of Bishop) in Hallq.
  apply Forall2_app_inv_l in Hallq as (rq1 & rq2 & Hq1 & Hq2 & ->).
  assert (rq1 = rr) as ->.
  { eapply rays_agree; [|..|exact Hq1|exact Hallr].
    - intros d Hd. by apply (sliding_directions Rook); [right; left|].
    - intros t Ht. by apply lookup_insert_ne. }
  assert (rq2 = rb) as ->.
  { eapply rays_agree; [|..|exact Hq2|exact Hallb].
    - intros d Hd. by apply (sliding_directions Bishop); [left|].
    - intros t Ht. by apply lookup_insert_ne. }
  exists (concat (rr ++ rb)), (concat rr), (concat rb).
  split; [done|]. split; [done|]. split; [done|].
  rewrite concat_app. split; [done|]. intros t. apply elem_of_app.
Qed.

Lemma queen_is_rook_and_bishop_witness :
  ∃ queen_moves rook_moves bishop_moves,
    get_available_moves 8 (mkPiece 0 Queen WHITE)
      (<[mkSquare 6 6 := mkPiece 1 Pawn BLACK]> {[mkSquare 4 4 := mkPiece 0 Queen WHITE]})
    = (<[mkSquare 6 6 := mkPiece 1 Pawn BLACK]> {[mkSquare 4 4 := mkPiece 0 Queen WHITE]},
       Ok queen_moves)
    ∧ get_available_moves 8 (mkPiece 2 Rook WHITE)
        (<[mkSquare 4 4 := mkPiece 2 Rook WHITE]>
           (<[mkSquare 6 6 := mkPiece 1 Pawn BLACK]>
              {[mkSquare 4 4 := mkPiece 0 Queen WHITE]}))
      = (<[mkSquare 4 4 := mkPiece 2 Rook WHITE]>
           (<[mkSquare 6 6 := mkPiece 1 Pawn BLACK]>
              {[mkSquare 4 4 := mkPiece 0 Queen WHITE]}),
         Ok rook_moves)
    ∧ get_available_moves 8 (mkPiece 3 Bishop WHITE)
        (<[mkSquare 4 4 := mkPiece 3 Bishop WHITE]>
           (<[mkSquare 6 6 := mkPiece 1 Pawn BLACK]>
              {[mkSquare 4 4 := mkPiece 0 Queen WHITE]}))
      = (<[mkSquare 4 4 := mkPiece 3 Bishop WHITE]>
           (<[mkSquare 6 6 := mkPiece 1 Pawn BLACK]>
              {[mkSquare 4 4 := mkPiece 0 Queen WHITE]}),
         Ok bishop_moves)
    ∧ queen_moves = rook_moves ++ bishop_moves
    ∧ (∀ t, t ∈ queen_moves ↔ t ∈ rook_moves ∨ t ∈ bishop_moves).
Proof.
  apply (queen_is_rook_and_bishop 8 (mkPiece 0 Queen WHITE) (mkPiece 2 Rook WHITE)
           (mkPiece 3 Bishop WHITE)
           (<[mkSquare 6 6 := mkPiece 1 Pawn BLACK]> {[mkSquare 4 4 := mkPiece 0 Queen WHITE]})
           (mkSquare 4 4)).
  - simpl. lia.
  - reflexivity.
  - reflexivity.
  - reflexivity.
  - reflexivity.
  - reflexivity.
  - eapply find_piece_Ok. vm_compute. reflexivity.
  - eapply find_piece_Ok. vm_compute. reflexivity.
  - eapply find_piece_Ok. vm_compute. reflexivity.
Defined.

(** ** Move generation is a query *)

(** C8.  Whatever the piece kind, the board and the outcome of the call,
    [get_available_moves] returns the board it was given: every square holds
    the occupant it held before, with the owner it had before. *)
Theorem get_available_moves_frame fuel self b :
  (get_available_moves fuel self b).1 = b
  ∧ (∀ sq, (get_available_moves fuel self b).1 !! sq = b !! sq)
  ∧ (∀ sq, player <$> (get_available_moves fuel self b).1 !! sq = player <$> b !! sq).
Proof.
  pose proof (read_only_get_available_moves fuel self b) as Hframe.
  rewrite Hframe. done.
Qed.

Lemma ask_twice_outcome fuel self b :
  ask_twice fuel self b
  = (b, match (get_available_moves fuel self b).2 with
        | Ok moves => Ok (moves, moves)
        | Raise e => Raise e
        | OutOfFuel => OutOfFuel
        end).
Proof.
  pose proof (read_only_get_available_moves fuel self b) as Hframe.
  unfold ask_twice, bind.
  destruct (get_available_moves fuel self b) as [b' [moves|e|]] eqn:Hfirst;
    simpl in Hframe; subst b'; [|done..].
  by rewrite Hfirst.
Qed.

(** ** No move to the square the piece stands on *)

Lemma hops_not_origin (b : Board) pl s (ds : list (Z * Z)) :
  (0, 0) ∉ ds →
  s ∉ filter (λ t, on_board t ∧ can_land b pl t) (offset s <$> ds).
Proof.
  intros Hds [_ Hin]%list_elem_of_filter.
  apply list_elem_of_fmap in Hin as ([dr dc] & Heq & Hd).
  destruct s as [r c]. unfold offset in Heq. simpl in Heq. injection Heq as Hr Hc.
  apply Hds. by replace dr with 0 in Hd by lia; replace dc with 0 in Hd by lia.
Qed.

Lemma rays_not_origin b pl s ds rays :
  (∀ d, d ∈ ds → d ∈ Queen_directions) →
  Forall2 (ray_of b pl s) ds rays → s ∉ concat rays.
Proof.
  intros Hds Hall. induction Hall as [|d ray ds rays Hray Hall IH]; simpl.
  - apply not_elem_of_nil.
  - rewrite elem_of_app. intros [Hin|Hin].
    + destruct Hray as (n & -> & _).
      apply list_elem_of_fmap in Hin as (k & Hk & Hrange%elem_of_seqZ).
      symmetry in Hk. revert Hk. apply shift_ne; [|lia]. apply Hds. by left.
    + revert Hin. apply IH. intros d' Hd'. apply Hds. by right.
Qed.

Lemma sliding_not_origin fuel self b s :
  (8 ≤ fuel)%nat → sliding (kind self) → located b self s →
  ∃ moves, get_available_moves fuel self b = (b, Ok moves) ∧ s ∉ moves.
Proof.
  intros Hfuel Hk Hloc.
  destruct (sliding_run fuel self b s Hfuel Hk Hloc) as (rays & Hrun & Hall).
  exists (concat rays). split; [done|].
  eapply rays_not_origin; [|exact Hall].
  intros d. by apply sliding_directions.
Qed.

Lemma get_available_moves_cases fuel self b s :
  (8 ≤ fuel)%nat → located b self s →
  (∃ moves, get_available_moves fuel self b = (b, Ok moves) ∧ s ∉ moves)
  ∨ (kind self = Pawn
     ∧ ¬ on_board (mkSquare (row s + pawn_direction (player self)) (col s))
     ∧ get_available_moves fuel self b = (b, Raise OutOfBoundsError)).
Proof.
  intros Hfuel Hloc.
  destruct (kind self) eqn:Hk.
  - destruct (decide (on_board (mkSquare (row s + pawn_direction (player self)) (col s))))
      as [Hone|Hone].
    + left. eexists. split.
      { unfold get_available_moves. rewrite Hk. by apply Pawn_run. }
      assert (H1 : mkSquare (row s + pawn_direction (player self)) (col s) ≠ s).
      { destruct s as [r c]; simpl. intros [=]. destruct (player self); simpl in *; lia. }
      assert (H2 : mkSquare (row s + 2 * pawn_direction (player self)) (col s) ≠ s).
      { destruct s as [r c]; simpl. intros [=]. destruct (player self); simpl in *; lia. }
      destruct (b !! mkSquare (row s + pawn_direction _) _); [apply not_elem_of_nil|].
      destruct (decide (row s = _));
        [destruct (b !! mkSquare (row s + 2 * pawn_direction _) _)|];
        rewrite ?elem_of_cons, ?elem_of_nil; intuition congruence.
    + right. split; [done|]. split; [done|].
      unfold get_available_moves. rewrite Hk. by apply (Pawn_off_board self b s).
  - left. eexists. split.
    { apply (stepping_run fuel self b s); [|done]. unfold stepping. rewrite Hk. tauto. }
    rewrite Hk. apply hops_not_origin. by apply (bool_decide_unpack _).
  - left. apply sliding_not_origin; [done| |done]. unfold sliding. rewrite Hk. tauto.
  - left. apply sliding_not_origin; [done| |done]. unfold sliding. rewrite Hk. tauto.
  - left. apply sliding_not_origin; [done| |done]. unfold sliding. rewrite Hk. tauto.
  - left. eexists. split.
    { apply (stepping_run fuel self b s); [|done]. unfold stepping. rewrite Hk. tauto. }
    rewrite Hk. apply hops_not_origin. by apply (bool_decide_unpack _).
Qed.

(** C10.  For a piece located at [s], the call either returns a list that
    does not contain [s], or the piece is a pawn with no square ahead of it
    and the call raises; the loops never run out of the eight iterations. *)
Theorem never_own_square fuel self b s :
  (8 ≤ fuel)%nat → located b self s →
  (∃ moves, get_available_moves fuel self b = (b, Ok moves) ∧ s ∉ moves)
  ∨ (kind self = Pawn
     ∧ ¬ on_board (mkSquare (row s + pawn_direction (player self)) (col s))
     ∧ get_available_moves fuel self b = (b, Raise OutOfBoundsError)).
Proof. apply get_available_moves_cases. Qed.

Lemma never_own_square_witness :
  (∃ moves,
     get_available_moves 8 (mkPiece 0 Bishop BLACK)
       (<[mkSquare 3 3 := mkPiece 1 Knight BLACK]> {[mkSquare 2 2 := mkPiece 0 Bishop BLACK]})
     = (<[mkSquare 3 3 := mkPiece 1 Knight BLACK]> {[mkSquare 2 2 := mkPiece 0 Bishop BLACK]},
        Ok moves)
     ∧ mkSquare 2 2 ∉ moves)
  ∨ (Bishop = Pawn
     ∧ ¬ on_board (mkSquare (2 + -1) 2)
     ∧ get_available_moves 8 (mkPiece 0 Bishop BLACK)
         (<[mkSquare 3 3 := mkPiece 1 Knight BLACK]>
            {[mkSquare 2 2 := mkPiece 0 Bishop BLACK]})
       = (<[mkSquare 3 3 := mkPiece 1 Knight BLACK]>
            {[mkSquare 2 2 := mkPiece 0 Bishop BLACK]},
          Raise OutOfBoundsError)).
Proof.
  apply (never_own_square 8 (mkPiece 0 Bishop BLACK)
           (<[mkSquare 3 3 := mkPiece 1 Knight BLACK]> {[mkSquare 2 2 := mkPiece 0 Bishop BLACK]})
           (mkSquare 2 2)).
  - simpl. lia.
  - eapply find_piece_Ok. vm_compute. reflexivity.
Defined.

(** ** Asking twice *)

(** C9.  For a piece located on the board, two calls in a row return two
    identical sequences: the first call returns a list of squares and leaves
    the board as it was, and the second call returns the same squares in the
    same order.  The second call has, in every case, the outcome of the
    first.  The one located piece that gets no sequence is the pawn with no
    square ahead of it, for which both calls raise. *)
Theorem get_available_moves_twice fuel self b s :
  (8 ≤ fuel)%nat → located b self s →
  get_available_moves fuel self (get_available_moves fuel self b).1
  = get_available_moves fuel self b
  ∧ ((∃ moves,
        get_available_moves fuel self b = (b, Ok moves)
        ∧ ask_twice fuel self b = (b, Ok (moves, moves)))
     ∨ (kind self = Pawn
        ∧ ¬ on_board (mkSquare (row s + pawn_direction (player self)) (col s))
        ∧ get_available_moves fuel self b = (b, Raise OutOfBoundsError))).
Proof.
  intros Hfuel Hloc. split.
  - by rewrite (read_only_get_available_moves fuel self b).
  - destruct (get_available_moves_cases fuel self b s Hfuel Hloc)
      as [(moves & Hrun & _)|Hraise]; [left|by right].
    exists moves. split; [done|].
    rewrite ask_twice_outcome. by rewrite Hrun.
Qed.

Lemma get_available_moves_twice_witness :
  get_available_moves 8 (mkPiece 0 Queen WHITE)
    (get_available_moves 8 (mkPiece 0 Queen WHITE)
       (<[mkSquare 6 6 := mkPiece 1 Pawn BLACK]>
          {[mkSquare 4 4 := mkPiece 0 Queen WHITE]})).1
  = get_available_moves 8 (mkPiece 0 Queen WHITE)
      (<[mkSquare 6 6 := mkPiece 1 Pawn BLACK]> {[mkSquare 4 4 := mkPiece 0 Queen WHITE]})
  ∧ ((∃ moves,
        get_available_moves 8 (mkPiece 0 Queen WHITE)
          (<[mkSquare 6 6 := mkPiece 1 Pawn BLACK]>
             {[mkSquare 4 4 := mkPiece 0 Queen WHITE]})
        = (<[mkSquare 6 6 := mkPiece 1 Pawn BLACK]>
             {[mkSquare 4 4 := mkPiece 0 Queen WHITE]}, Ok moves)
        ∧ ask_twice 8 (mkPiece 0 Queen WHITE)
            (<[mkSquare 6 6 := mkPiece 1 Pawn BLACK]>
               {[mkSquare 4 4 := mkPiece 0 Queen WHITE]})
          = (<[mkSquare 6 6 := mkPiece 1 Pawn BLACK]>
               {[mkSquare 4 4 := mkPiece 0 Queen WHITE]}, Ok (moves, moves)))
     ∨ (Queen = Pawn
        ∧ ¬ on_board (mkSquare (4 + 1) 4)
        ∧ get_available_moves 8 (mkPiece 0 Queen WHITE)
            (<[mkSquare 6 6 := mkPiece 1 Pawn BLACK]>
               {[mkSquare 4 4 := mkPiece 0 Queen WHITE]})
          = (<[mkSquare 6 6 := mkPiece 1 Pawn BLACK]>
               {[mkSquare 4 4 := mkPiece 0 Queen WHITE]}, Raise OutOfBoundsError))).
Proof.
  apply (get_available_moves_twice 8 (mkPiece 0 Queen WHITE)
           (<[mkSquare 6 6 := mkPiece 1 Pawn BLACK]> {[mkSquare 4 4 := mkPiece 0 Queen WHITE]})
           (mkSquare 4 4)).
  - simpl. lia.
  - eapply find_piece_Ok. vm_compute. reflexivity.
Defined.

(** ** Returned squares are squares of the board *)

(** Whenever the call returns, for a located piece, every square it returns
    is a square of the board. *)
Lemma moves_on_board fuel self b s moves :
  (8 ≤ fuel)%nat → located b self s →
  get_available_moves fuel self b = (b, Ok moves) →
  Forall on_board moves.
Proof.
  intros Hfuel Hloc Hrun. pose proof Hloc as (Hs & _).
  destruct (decide (sliding (kind self))) as [Hk|Hnk].
  { destruct (sliding_run fuel self b s Hfuel Hk Hloc) as (rays & Hrun' & Hall).
    rewrite Hrun' in Hrun. injection Hrun as <-. clear Hrun'.
    induction Hall as [|d ray ds rays Hray Hall IH]; simpl; [constructor|].
    apply Forall_app. split; [|done].
    destruct Hray as (n & -> & _ & Hboard & _).
    apply Forall_fmap, Forall_seqZ. intros k Hk'. apply Hboard. lia. }
  destruct (decide (stepping (kind self))) as [Hk|Hnk'].
  { rewrite (stepping_run fuel self b s Hk Hloc) in Hrun. injection Hrun as <-.
    apply Forall_forall. by intros t [[? _] _]%list_elem_of_filter. }
  assert (Hk : kind self = Pawn).
  { unfold sliding, stepping in *. destruct (kind self); tauto. }
  unfold get_available_moves in Hrun. rewrite Hk in Hrun.
  destruct (decide (on_board (mkSquare (row s + pawn_direction (player self)) (col s))))
    as [Hone|Hone].
  - rewrite (Pawn_run self b s Hloc Hone) in Hrun. injection Hrun as <-.
    destruct (b !! mkSquare (row s + pawn_direction _) _); [constructor|].
    constructor; [done|].
    destruct (decide (row s = _)) as [Hrow|]; [|constructor].
    destruct (b !! mkSquare (row s + 2 * pawn_direction _) _); constructor; [|constructor].
    apply on_board_spec. apply on_board_spec in Hs.
    destruct (player self); simpl in *; lia.
  - rewrite (Pawn_off_board self b s Hloc Hone) in Hrun. discriminate Hrun.
Qed.

(** Every piece other than a pawn on the last row of its direction of travel
    does get a list of moves. *)
Lemma moves_returned fuel self b s :
  (8 ≤ fuel)%nat → located b self s →
  (kind self = Pawn → on_board (mkSquare (row s + pawn_direction (player self)) (col s))) →
  ∃ moves, get_available_moves fuel self b = (b, Ok moves).
Proof.
  intros Hfuel Hloc Hpawn.
  destruct (get_available_moves_cases fuel self b s Hfuel Hloc)
    as [(moves & Hrun & _)|(Hk & Hoff & _)].
  - by exists moves.
  - destruct Hoff. by apply Hpawn.
Qed.

(** ** The cases of the test suite *)

Example test_bishop_can_capture_enemy_but_not_move_past :
  get_available_moves 8 (mkPiece 0 Bishop WHITE)
    (<[mkSquare 6 6 := mkPiece 1 Pawn BLACK]> {[mkSquare 4 4 := mkPiece 0 Bishop WHITE]})
  = (<[mkSquare 6 6 := mkPiece 1 Pawn BLACK]> {[mkSquare 4 4 := mkPiece 0 Bishop WHITE]},
     Ok [mkSquare 3 3; mkSquare 2 2; mkSquare 1 1; mkSquare 0 0;
         mkSquare 3 5; mkSquare 2 6; mkSquare 1 7;
         mkSquare 5 3; mkSquare 6 2; mkSquare 7 1;
         mkSquare 5 5; mkSquare 6 6]).
Proof. vm_compute. reflexivity. Qed.

Example test_rook_blocked_by_friendly_piece :
  get_available_moves 8 (mkPiece 0 Rook WHITE)
    (<[mkSquare 4 6 := mkPiece 1 Pawn WHITE]> {[mkSquare 4 4 := mkPiece 0 Rook WHITE]})
  = (<[mkSquare 4 6 := mkPiece 1 Pawn WHITE]> {[mkSquare 4 4 := mkPiece 0 Rook WHITE]},
     Ok [mkSquare 3 4; mkSquare 2 4; mkSquare 1 4; mkSquare 0 4;
         mkSquare 5 4; mkSquare 6 4; mkSquare 7 4;
         mkSquare 4 3; mkSquare 4 2; mkSquare 4 1; mkSquare 4 0;
         mkSquare 4 5]).
Proof. vm_compute. reflexivity. Qed.

Example test_knight_can_capture_enemy_but_not_friendly :
  get_available_moves 8 (mkPiece 0 Knight WHITE)
    (<[mkSquare 2 3 := mkPiece 2 Pawn WHITE]>
       (<[mkSquare 6 5 := mkPiece 1 Pawn BLACK]> {[mkSquare 4 4 := mkPiece 0 Knight WHITE]}))
  = (<[mkSquare 2 3 := mkPiece 2 Pawn WHITE]>
       (<[mkSquare 6 5 := mkPiece 1 Pawn BLACK]> {[mkSquare 4 4 := mkPiece 0 Knight WHITE]}),
     Ok [mkSquare 2 5; mkSquare 3 2; mkSquare 3 6;
         mkSquare 5 2; mkSquare 5 6; mkSquare 6 3; mkSquare 6 5]).
Proof. vm_compute. reflexivity. Qed.

Example test_white_pawn_cannot_move_up_two_squares_if_already_moved :
  (let* _ := set_piece (mkSquare 1 4) (mkPiece 0 Pawn WHITE) in
   let* _ := move_to (mkPiece 0 Pawn WHITE) (mkSquare 2 4) in
   get_available_moves 8 (mkPiece 0 Pawn WHITE)) ∅
  = ({[mkSquare 2 4 := mkPiece 0 Pawn WHITE]}, Ok [mkSquare 3 4]).
Proof. vm_compute. reflexivity. Qed.

Example test_black_pawn_can_move_down_two_squares_if_not_moved :
  get_available_moves 8 (mkPiece 0 Pawn BLACK) {[mkSquare 6 4 := mkPiece 0 Pawn BLACK]}
  = ({[mkSquare 6 4 := mkPiece 0 Pawn BLACK]}, Ok [mkSquare 5 4; mkSquare 4 4]).
Proof. vm_compute. reflexivity. Qed.

(** * Further properties of the move generators *)

(** ** Line of sight of the sliding pieces *)

Lemma shift_between s d j k :
  d ∈ Queen_directions → on_board s → on_board (shift s d k) → 0 ≤ j ≤ k →
  on_board (shift s d j).
Proof.
  unfold Queen_directions. rewrite !elem_of_cons, elem_of_nil, !on_board_spec.
  intros Hd; repeat destruct Hd as [Hd|Hd]; try done; subst d; simpl; lia.
Qed.

Lemma shift_inj s d d' k k' :
  d ∈ Queen_directions → d' ∈ Queen_directions → 1 ≤ k → 1 ≤ k' →
  shift s d k = shift s d' k' → d = d' ∧ k = k'.
Proof.
  unfold Queen_directions. rewrite !elem_of_cons, !elem_of_nil.
  intros Hd Hd' Hk Hk'. unfold shift. intros [=].
  repeat destruct Hd as [Hd|Hd]; try done; subst d;
    repeat destruct Hd' as [Hd'|Hd']; try done; subst d'; simpl in *;
    first [split; [reflexivity|lia] | exfalso; lia].
Qed.

(** Membership in a ray, in closed form. *)
Lemma elem_of_ray b pl s d ray t :
  d ∈ Queen_directions → on_board s → ray_of b pl s d ray →
  t ∈ ray ↔
  ∃ k, 1 ≤ k ∧ t = shift s d k ∧ on_board t
       ∧ (∀ j, 1 ≤ j < k → b !! shift s d j = None)
       ∧ can_land b pl t.
Proof.
  intros Hd Hs (n & -> & Hn & Hboard & Hempty & Hland & Hstop). split.
  - intros (k & -> & Hk%elem_of_seqZ)%list_elem_of_fmap.
    exists k. split; [lia|]. split; [done|]. split; [apply Hboard; lia|].
    split; [intros j Hj; apply Hempty; lia|].
    destruct (decide (k = n)) as [->|Hne]; [apply Hland; lia|].
    unfold can_land. by rewrite Hempty by lia.
  - intros (k & Hk & -> & Hon & Hclear & Hfree).
    apply list_elem_of_fmap. exists k. split; [done|]. apply elem_of_seqZ.
    destruct (decide (k ≤ n)) as [|Hlt]; [lia|]. exfalso.
    destruct Hstop as [Hoff|[[Hpos [q Hq]]|(q & Hq & Hpl)]].
    + apply Hoff. apply (shift_between s d (n + 1) k); [done..|lia].
    + rewrite Hclear in Hq by lia. done.
    + destruct (decide (n + 1 = k)) as [<-|Hne].
      * unfold can_land in Hfree. rewrite Hq in Hfree. done.
      * rewrite Hclear in Hq by lia. done.
Qed.

Lemma elem_of_rays b pl s ds rays t :
  (∀ d, d ∈ ds → d ∈ Queen_directions) → on_board s →
  Forall2 (ray_of b pl s) ds rays →
  t ∈ concat rays ↔
  ∃ d k, d ∈ ds ∧ 1 ≤ k ∧ t = shift s d k ∧ on_board t
         ∧ (∀ j, 1 ≤ j < k → b !! shift s d j = None)
         ∧ can_land b pl t.
Proof.
  intros Hds Hs Hall. induction Hall as [|d ray ds rays Hray Hall IH]; simpl.
  - rewrite elem_of_nil. split; [done|]. intros (d & k & Hd & _). by apply elem_of_nil in Hd.
  - rewrite elem_of_app, (elem_of_ray b pl s d ray t), IH;
      [|intros d' Hd'; apply Hds; by right|apply Hds; by left|done|done].
    split.
    + intros [(k & Hk)|(d' & k & Hd' & Hk)].
      * exists d, k. split; [by left|done].
      * exists d', k. split; [by right|done].
    + intros (d' & k & Hd' & Hk). apply elem_of_cons in Hd' as [->|Hd'].
      * left. by exists k.
      * right. by exists d', k.
Qed.

(** A square is among the moves of a bishop, rook or queen exactly when it
    lies on one of the piece's lines, every square strictly between the piece
    and it is unoccupied, and it is itself unoccupied or held by the
    opponent. *)
Theorem sliding_line_of_sight fuel self b s :
  (8 ≤ fuel)%nat → sliding (kind self) → located b self s →
  ∃ moves,
    get_available_moves fuel self b = (b, Ok moves)
    ∧ ∀ t, t ∈ moves ↔
           ∃ d k, d ∈ directions_of (kind self) ∧ 1 ≤ k ∧ t = shift s d k
                  ∧ on_board t
                  ∧ (∀ j, 1 ≤ j < k → b !! shift s d j = None)
                  ∧ (b !! t = None ∨ ∃ q, b !! t = Some q ∧ player q ≠ player self).
Proof.
  intros Hfuel Hk Hloc. pose proof Hloc as (Hs & _).
  destruct (sliding_run fuel self b s Hfuel Hk Hloc) as (rays & Hrun & Hall).
  exists (concat rays). split; [done|]. intros t.
  rewrite (elem_of_rays b (player self) s (directions_of (kind self)) rays t);
    [|intros d; by apply sliding_directions|done|done].
  assert (Hfree : can_land b (player self) t ↔
            b !! t = None ∨ ∃ q, b !! t = Some q ∧ player q ≠ player self).
  { unfold can_land. destruct (b !! t) as [q|]; [|by intuition].
    split; [intros ?; right; by exists q|]. by intros [|(? & [= <-] & ?)]. }
  split; intros (d & k & Hd & Hk1 & Ht & Hon & Hclear & Hland);
    exists d, k; (repeat split; [done..|]); by apply Hfree.
Qed.

Lemma sliding_line_of_sight_witness :
  ∃ moves,
    get_available_moves 8 (mkPiece 0 Queen BLACK)
      (<[mkSquare 0 3 := mkPiece 1 Rook WHITE]> {[mkSquare 0 0 := mkPiece 0 Queen BLACK]})
    = (<[mkSquare 0 3 := mkPiece 1 Rook WHITE]> {[mkSquare 0 0 := mkPiece 0 Queen BLACK]},
       Ok moves)
    ∧ ∀ t, t ∈ moves ↔
           ∃ d k, d ∈ directions_of Queen ∧ 1 ≤ k ∧ t = shift (mkSquare 0 0) d k
                  ∧ on_board t
                  ∧ (∀ j, 1 ≤ j < k →
                     (<[mkSquare 0 3 := mkPiece 1 Rook WHITE]>
                        {[mkSquare 0 0 := mkPiece 0 Queen BLACK]} : Board)
                       !! shift (mkSquare 0 0) d j = None)
                  ∧ ((<[mkSquare 0 3 := mkPiece 1 Rook WHITE]>
                        {[mkSquare 0 0 := mkPiece 0 Queen BLACK]} : Board) !! t = None
                     ∨ ∃ q, (<[mkSquare 0 3 := mkPiece 1 Rook WHITE]>
                               {[mkSquare 0 0 := mkPiece 0 Queen BLACK]} : Board) !! t
                            = Some q
                            ∧ player q ≠ BLACK).
Proof.
  apply (sliding_line_of_sight 8 (mkPiece 0 Queen BLACK)
           (<[mkSquare 0 3 := mkPiece 1 Rook WHITE]> {[mkSquare 0 0 := mkPiece 0 Queen BLACK]})
           (mkSquare 0 0)).
  - simpl. lia.
  - right; right. reflexivity.
  - eapply find_piece_Ok. vm_compute. reflexivity.
Defined.

(** ** What a returned list looks like *)

Lemma offset_inj s : Inj (=) (=) (offset s).
Proof. intros [dr dc] [dr' dc']. unfold offset; simpl. intros [=]. f_equal; lia. Qed.

Lemma NoDup_rays b pl s ds rays :
  (∀ d, d ∈ ds → d ∈ Queen_directions) → on_board s → NoDup ds →
  Forall2 (ray_of b pl s) ds rays → NoDup (concat rays).
Proof.
  intros Hds Hs Hnd Hall. induction Hall as [|d ray ds rays Hray Hall IH]; simpl.
  - constructor.
  - apply NoDup_cons in Hnd as [Hd Hnd].
    assert (Hdq : d ∈ Queen_directions) by (apply Hds; by left).
    assert (Hdsq : ∀ d', d' ∈ ds → d' ∈ Queen_directions)
      by (intros d' Hd'; apply Hds; by right).
    apply NoDup_app. split; [|split; [|by apply IH]].
    + destruct Hray as (n & -> & _). apply NoDup_fmap_2_strong; [|apply NoDup_seqZ].
      intros k k' Hk%elem_of_seqZ Hk'%elem_of_seqZ Heq.
      by destruct (shift_inj s d d k k') as [_ ?]; [done|done|lia|lia|done|].
    + intros t Ht Ht'.
      apply (elem_of_ray b pl s d ray t Hdq Hs Hray) in Ht as (k & Hk & -> & _).
      apply (elem_of_rays b pl s ds rays _ Hdsq Hs Hall) in Ht'
        as (d' & k' & Hd' & Hk' & Heq & _).
      destruct (shift_inj s d d' k k') as [-> _]; [done|by apply Hdsq|done..|].
      done.
Qed.

Lemma NoDup_directions k : NoDup (directions_of k).
Proof. destruct k; apply (bool_decide_unpack _); by vm_compute. Qed.

Lemma moves_NoDup fuel self b s moves :
  (8 ≤ fuel)%nat → located b self s →
  get_available_moves fuel self b = (b, Ok moves) → NoDup moves.
Proof.
  intros Hfuel Hloc Hrun. pose proof Hloc as (Hs & _).
  destruct (decide (sliding (kind self))) as [Hk|Hnk].
  { destruct (sliding_run fuel self b s Hfuel Hk Hloc) as (rays & Hrun' & Hall).
    rewrite Hrun' in Hrun. injection Hrun as <-.
    eapply NoDup_rays; [|done|apply NoDup_directions|exact Hall].
    intros d. by apply sliding_directions. }
  destruct (decide (stepping (kind self))) as [Hk|Hnk'].
  { rewrite (stepping_run fuel self b s Hk Hloc) in Hrun. injection Hrun as <-.
    apply NoDup_filter, NoDup_fmap_2; [apply offset_inj|apply NoDup_directions]. }
  assert (Hk : kind self = Pawn).
  { unfold sliding, stepping in *. destruct (kind self); tauto. }
  unfold get_available_moves in Hrun. rewrite Hk in Hrun.
  destruct (decide (on_board (mkSquare (row s + pawn_direction (player self)) (col s))))
    as [Hone|Hone].
  - rewrite (Pawn_run self b s Hloc Hone) in Hrun. injection Hrun as <-.
    destruct (b !! mkSquare (row s + pawn_direction _) _); [constructor|].
    destruct (decide (row s = _)) as [Hrow|]; [|apply NoDup_singleton].
    destruct (b !! mkSquare (row s + 2 * pawn_direction _) _); [apply NoDup_singleton|].
    apply NoDup_cons. split; [|apply NoDup_singleton].
    intros [=]%list_elem_of_singleton. destruct (player self); simpl in *; lia.
  - rewrite (Pawn_off_board self b s Hloc Hone) in Hrun. discriminate Hrun.
Qed.

Lemma moves_can_land fuel self b s moves :
  (8 ≤ fuel)%nat → located b self s →
  get_available_moves fuel self b = (b, Ok moves) →
  Forall (can_land b (player self)) moves.
Proof.
  intros Hfuel Hloc Hrun. pose proof Hloc as (Hs & _). apply Forall_forall. intros t Ht.
  destruct (decide (sliding (kind self))) as [Hk|Hnk].
  { destruct (sliding_run fuel self b s Hfuel Hk Hloc) as (rays & Hrun' & Hall).
    rewrite Hrun' in Hrun. injection Hrun as <-.
    apply (elem_of_rays b (player self) s (directions_of (kind self)) rays t) in Ht
      as (d & k & _ & _ & _ & _ & _ & Hland); [done| |done..].
    intros d. by apply sliding_directions. }
  destruct (decide (stepping (kind self))) as [Hk|Hnk'].
  { rewrite (stepping_run fuel self b s Hk Hloc) in Hrun. injection Hrun as <-.
    by apply list_elem_of_filter in Ht as [[_ ?] _]. }
  assert (Hk : kind self = Pawn).
  { unfold sliding, stepping in *. destruct (kind self); tauto. }
  unfold get_available_moves in Hrun. rewrite Hk in Hrun.
  destruct (decide (on_board (mkSquare (row s + pawn_direction (player self)) (col s))))
    as [Hone|Hone].
  - rewrite (Pawn_run self b s Hloc Hone) in Hrun. injection Hrun as <-.
    unfold can_land.
    destruct (b !! mkSquare (row s + pawn_direction _) _) eqn:H1;
      [by apply elem_of_nil in Ht|].
    apply elem_of_cons in Ht as [->|Ht]; [by rewrite H1|].
    destruct (decide (row s = _)) as [Hrow|]; [|by apply elem_of_nil in Ht].
    destruct (b !! mkSquare (row s + 2 * pawn_direction _) _) eqn:H2;
      [by apply elem_of_nil in Ht|].
    apply list_elem_of_singleton in Ht as ->. by rewrite H2.
  - rewrite (Pawn_off_board self b s Hloc Hone) in Hrun. discriminate Hrun.
Qed.

(** For a located piece of any kind, the call returns a list in which no
    square occurs twice, unless the piece is a pawn with no square ahead of
    it, when the call raises. *)
Theorem moves_without_repetition fuel self b s :
  (8 ≤ fuel)%nat → located b self s →
  (∃ moves, get_available_moves fuel self b = (b, Ok moves) ∧ NoDup moves)
  ∨ (kind self = Pawn
     ∧ ¬ on_board (mkSquare (row s + pawn_direction (player self)) (col s))
     ∧ get_available_moves fuel self b = (b, Raise OutOfBoundsError)).
Proof.
  intros Hfuel Hloc.
  destruct (get_available_moves_cases fuel self b s Hfuel Hloc)
    as [(moves & Hrun & _)|Hraise]; [left|by right].
  exists moves. split; [done|]. by apply (moves_NoDup fuel self b s).
Qed.

(** For a located piece of any kind, the call returns only squares of the
    board that are unoccupied or hold a piece of the other player: a piece is
    never sent onto a piece of its own side, or off the board.  The one
    exception is the pawn with no square ahead of it, when the call raises. *)
Theorem moves_never_onto_own_piece fuel self b s :
  (8 ≤ fuel)%nat → located b self s →
  (∃ moves,
     get_available_moves fuel self b = (b, Ok moves)
     ∧ ∀ t, t ∈ moves →
            on_board t ∧ ∀ q, b !! t = Some q → player q ≠ player self)
  ∨ (kind self = Pawn
     ∧ ¬ on_board (mkSquare (row s + pawn_direction (player self)) (col s))
     ∧ get_available_moves fuel self b = (b, Raise OutOfBoundsError)).
Proof.
  intros Hfuel Hloc.
  destruct (get_available_moves_cases fuel self b s Hfuel Hloc)
    as [(moves & Hrun & _)|Hraise]; [left|by right].
  exists moves. split; [done|]. intros t Ht. split.
  - pose proof (moves_on_board fuel self b s moves Hfuel Hloc Hrun) as Hon.
    by apply (proj1 (Forall_forall _ _) Hon).
  - pose proof (moves_can_land fuel self b s moves Hfuel Hloc Hrun) as Hland.
    apply (proj1 (Forall_forall _ _) Hland) in Ht. unfold can_land in Ht.
    intros q Hq. by rewrite Hq in Ht.
Qed.

(** ** How many moves *)

Lemma ray_length b pl s d ray :
  on_board s → ray_of b pl s d ray →
  ∃ n, length ray = Z.to_nat n ∧ 0 ≤ n ∧ on_board (shift s d n).
Proof.
  intros Hs (n & -> & Hn & Hboard & _). exists n.
  rewrite length_fmap, length_seqZ. split; [done|]. split; [done|].
  destruct (decide (n = 0)) as [->|]; [by rewrite shift_0|]. apply Hboard. lia.
Qed.

Lemma steps_to_edge_spec s d n :
  d ∈ Queen_directions → on_board s → 0 ≤ n →
  on_board (shift s d n) → ¬ on_board (shift s d (n + 1)) →
  n = steps_to_edge s d.
Proof.
  unfold Queen_directions. rewrite !elem_of_cons, elem_of_nil, !on_board_spec.
  intros Hd; repeat destruct Hd as [Hd|Hd]; try done; subst d;
    unfold steps_to_edge, room; simpl; lia.
Qed.

Lemma ray_length_alone self pl s d ray :
  d ∈ Queen_directions → on_board s → ray_of {[s := self]} pl s d ray →
  Z.of_nat (length ray) = steps_to_edge s d.
Proof.
  intros Hd Hs (n & -> & Hn & Hboard & _ & _ & Hstop).
  rewrite length_fmap, length_seqZ, Z2Nat.id by done.
  apply steps_to_edge_spec; [done..| |].
  { destruct (decide (n = 0)) as [->|]; [by rewrite shift_0|]. apply Hboard. lia. }
  assert (Hfree : ∀ k, 1 ≤ k → ({[s := self]} : Board) !! shift s d k = None).
  { intros k Hk. apply lookup_singleton_ne. intros Heq. by apply (shift_ne s d k). }
  destruct Hstop as [?|[[Hpos [q Hq]]|(q & Hq & _)]]; [done|..];
    rewrite Hfree in Hq by lia; done.
Qed.

Ltac split_rays Hall :=
  repeat (apply Forall2_cons_inv_l in Hall as (? & ? & ? & Hall & ->));
  apply Forall2_nil_inv_l in Hall as ->.

Lemma moves_length fuel self b s moves :
  (8 ≤ fuel)%nat → located b self s →
  get_available_moves fuel self b = (b, Ok moves) →
  (length moves ≤ match kind self with
                  | Pawn => 2 | Knight => 8 | Bishop => 13
                  | Rook => 14 | Queen => 27 | King => 8
                  end)%nat.
Proof.
  intros Hfuel Hloc Hrun. pose proof Hloc as (Hs & _).
  destruct (decide (sliding (kind self))) as [Hk|Hnk].
  { destruct (sliding_run fuel self b s Hfuel Hk Hloc) as (rays & Hrun' & Hall).
    rewrite Hrun' in Hrun. injection Hrun as <-. clear Hrun'.
    pose proof (ray_length b (player self) s) as Hlen.
    apply on_board_spec in Hs as Hs'.
    destruct Hk as [Hk|[Hk|Hk]]; rewrite Hk in *; simpl in Hall; split_rays Hall;
      repeat match goal with
             | H : ray_of _ _ _ _ _ |- _ =>
                 apply Hlen in H as (? & ? & ? & ?%on_board_spec); [|done]
             end;
      simpl in *; rewrite ?length_app; simpl; lia. }
  destruct (decide (stepping (kind self))) as [Hk|Hnk'].
  { rewrite (stepping_run fuel self b s Hk Hloc) in Hrun. injection Hrun as <-.
    etrans; [apply length_filter|]. rewrite length_fmap.
    by destruct Hk as [-> | ->]. }
  assert (Hk : kind self = Pawn).
  { unfold sliding, stepping in *. destruct (kind self); tauto. }
  unfold get_available_moves in Hrun. rewrite Hk in *.
  destruct (decide (on_board (mkSquare (row s + pawn_direction (player self)) (col s))))
    as [Hone|Hone].
  - rewrite (Pawn_run self b s Hloc Hone) in Hrun. injection Hrun as <-.
    destruct (b !! mkSquare (row s + pawn_direction _) _); [simpl; lia|].
    destruct (decide (row s = _)); [|simpl; lia].
    destruct (b !! mkSquare (row s + 2 * pawn_direction _) _); simpl; lia.
  - rewrite (Pawn_off_board self b s Hloc Hone) in Hrun. discriminate Hrun.
Qed.

(** A located piece is never offered more moves than its kind allows on an
    8x8 board: 2 for a pawn, 8 for a knight or king, 13 for a bishop, 14 for
    a rook and 27 for a queen.  (The pawn with no square ahead raises.) *)
Theorem moves_count_bound fuel self b s :
  (8 ≤ fuel)%nat → located b self s →
  (∃ moves,
     get_available_moves fuel self b = (b, Ok moves)
     ∧ (length moves ≤ match kind self with
                       | Pawn => 2 | Knight => 8 | Bishop => 13
                       | Rook => 14 | Queen => 27 | King => 8
                       end)%nat)
  ∨ (kind self = Pawn
     ∧ ¬ on_board (mkSquare (row s + pawn_direction (player self)) (col s))
     ∧ get_available_moves fuel self b = (b, Raise OutOfBoundsError)).
Proof.
  intros Hfuel Hloc.
  destruct (get_available_moves_cases fuel self b s Hfuel Hloc)
    as [(moves & Hrun & _)|Hraise]; [left|by right].
  exists moves. split; [done|]. by apply (moves_length fuel self b s).
Qed.

(** Alone on the board, a rook has exactly 14 moves wherever it stands; a
    bishop at (r,c) has min(r,c) + min(r,7-c) + min(7-r,c) + min(7-r,7-c)
    moves, and a queen has the two numbers together. *)
Theorem moves_count_alone fuel self s :
  (8 ≤ fuel)%nat → sliding (kind self) → on_board s →
  ∃ moves,
    get_available_moves fuel self {[s := self]} = ({[s := self]}, Ok moves)
    ∧ Z.of_nat (length moves)
      = let diagonals :=
          Z.min (row s) (col s) + Z.min (row s) (7 - col s)
          + Z.min (7 - row s) (col s) + Z.min (7 - row s) (7 - col s) in
        match kind self with
        | Rook => 14
        | Bishop => diagonals
        | Queen => 14 + diagonals
        | _ => 0
        end.
Proof.
  intros Hfuel Hk Hs.
  pose proof (located_singleton s self Hs) as Hloc.
  destruct (sliding_run fuel self _ s Hfuel Hk Hloc) as (rays & Hrun & Hall).
  exists (concat rays). split; [done|]. clear Hrun Hloc.
  pose proof (ray_length_alone self (player self) s) as Hlen.
  apply on_board_spec in Hs as Hs'.
  destruct Hk as [Hk|[Hk|Hk]]; rewrite Hk in *; simpl in Hall; split_rays Hall;
    repeat match goal with
           | H : ray_of _ _ _ _ _ |- _ =>
               apply Hlen in H; [|by apply (bool_decide_unpack _)|done];
               unfold steps_to_edge, room in H; cbn [fst snd] in H
           end;
    clear Hlen; cbn [concat]; rewrite !length_app; cbn [length]; lia.
Qed.

(** ** The loops end *)

Lemma find_piece_cases self b :
  (∃ s, find_piece self b = (b, Ok s) ∧ located b self s)
  ∨ find_piece self b = (b, Raise PieceNotFoundError).
Proof.
  destruct (find_piece self b) as [b' o] eqn:Hf.
  pose proof (read_only_find_piece self b) as Hb. rewrite Hf in Hb. simpl in Hb. subst b'.
  destruct o as [s|e|].
  - left. exists s. split; [done|]. by apply find_piece_Ok in Hf as [_ ?].
  - right. unfold find_piece in Hf.
    destruct (filter _ all_squares) as [|? [|??]]; congruence.
  - unfold find_piece in Hf.
    destruct (filter _ all_squares) as [|? [|??]]; congruence.
Qed.

Lemma get_available_moves_not_found fuel self b :
  find_piece self b = (b, Raise PieceNotFoundError) →
  get_available_moves fuel self b = (b, Raise PieceNotFoundError).
Proof.
  intros Hf. unfold get_available_moves.
  destruct (kind self);
    unfold Pawn_get_available_moves, Knight_get_available_moves,
      Bishop_get_available_moves, Rook_get_available_moves,
      Queen_get_available_moves, King_get_available_moves, bind;
    by rewrite Hf.
Qed.

Lemma get_available_moves_fuel fuel self b :
  (8 ≤ fuel)%nat →
  get_available_moves fuel self b = get_available_moves 8 self b.
Proof.
  intros Hfuel. destruct (find_piece_cases self b) as [(s & _ & Hloc)|Hf].
  - destruct (decide (sliding (kind self))) as [Hk|Hnk].
    + destruct (sliding_run fuel self b s Hfuel Hk Hloc) as (rays & -> & Hall).
      destruct (sliding_run 8 self b s (le_n _) Hk Hloc) as (rays' & -> & Hall').
      do 3 f_equal. eapply rays_agree; [|done|exact Hall|exact Hall'].
      intros d. by apply sliding_directions.
    + unfold get_available_moves, sliding in *. destruct (kind self); try done; tauto.
  - by rewrite !get_available_moves_not_found.
Qed.

(** Every [while True] loop of the sliding pieces ends within eight
    iterations, on every board and for every piece, on the board or not:
    with eight iterations or more allowed, the call gives the outcome it
    gives with exactly eight, and that outcome is a list or an exception.
    Seven iterations are not enough for a rook in a corner. *)
Theorem loops_end_within_eight fuel self b :
  (8 ≤ fuel)%nat →
  get_available_moves fuel self b = get_available_moves 8 self b
  ∧ (get_available_moves fuel self b).2 ≠ OutOfFuel
  ∧ (get_available_moves 7 (mkPiece 0 Rook WHITE)
       {[mkSquare 0 0 := mkPiece 0 Rook WHITE]}).2 = OutOfFuel.
Proof.
  intros Hfuel. split; [by apply get_available_moves_fuel|]. split; [|by vm_compute].
  destruct (find_piece_cases self b) as [(s & _ & Hloc)|Hf].
  - destruct (get_available_moves_cases fuel self b s Hfuel Hloc)
      as [(moves & -> & _)|(_ & _ & ->)]; done.
  - by rewrite get_available_moves_not_found.
Qed.

Lemma loops_end_within_eight_witness :
  get_available_moves 20 (mkPiece 0 Queen WHITE) {[mkSquare 3 4 := mkPiece 0 Queen WHITE]}
  = get_available_moves 8 (mkPiece 0 Queen WHITE) {[mkSquare 3 4 := mkPiece 0 Queen WHITE]}
  ∧ (get_available_moves 20 (mkPiece 0 Queen WHITE)
       {[mkSquare 3 4 := mkPiece 0 Queen WHITE]}).2 ≠ OutOfFuel
  ∧ (get_available_moves 7 (mkPiece 0 Rook WHITE)
       {[mkSquare 0 0 := mkPiece 0 Rook WHITE]}).2 = OutOfFuel.
Proof.
  apply (loops_end_within_eight 20 (mkPiece 0 Queen WHITE)
           {[mkSquare 3 4 := mkPiece 0 Queen WHITE]}).
  lia.
Defined.

(** ** Pawns do not capture *)

(** Whenever the square ahead of a located pawn is a square of the board,
    the call returns only unoccupied squares of the pawn's own column; a pawn
    whose square ahead is occupied, by either player, gets no move at all;
    and a pawn off its nominal starting row gets at most one move. *)
Theorem pawn_never_captures fuel self b s :
  kind self = Pawn → located b self s →
  on_board (mkSquare (row s + pawn_direction (player self)) (col s)) →
  ∃ moves,
    get_available_moves fuel self b = (b, Ok moves)
    ∧ (∀ t, t ∈ moves → b !! t = None ∧ col t = col s)
    ∧ (is_Some (b !! mkSquare (row s + pawn_direction (player self)) (col s)) →
       moves = [])
    ∧ (row s ≠ pawn_starting_row (player self) → (length moves ≤ 1)%nat).
Proof.
  intros Hk Hloc Hone. eexists. split.
  { unfold get_available_moves. rewrite Hk. by apply Pawn_run. }
  destruct (b !! mkSquare (row s + pawn_direction _) _) eqn:H1.
  { split; [by intros t ?%elem_of_nil|]. split; [done|]. simpl. lia. }
  destruct (decide (row s = _)) as [Hrow|Hrow].
  - destruct (b !! mkSquare (row s + 2 * pawn_direction _) _) eqn:H2;
      (split; [intros t Ht|split; [by intros [??]|done]]).
    + by apply list_elem_of_singleton in Ht as ->.
    + apply elem_of_cons in Ht as [->|Ht]; [done|].
      by apply list_elem_of_singleton in Ht as ->.
  - split; [intros t Ht|split; [by intros [??]|simpl; lia]].
    by apply list_elem_of_singleton in Ht as ->.
Qed.

Lemma pawn_never_captures_witness :
  ∃ moves,
    get_available_moves 8 (mkPiece 0 Pawn BLACK)
      (<[mkSquare 4 3 := mkPiece 1 Pawn WHITE]> {[mkSquare 5 4 := mkPiece 0 Pawn BLACK]})
    = (<[mkSquare 4 3 := mkPiece 1 Pawn WHITE]> {[mkSquare 5 4 := mkPiece 0 Pawn BLACK]},
       Ok moves)
    ∧ (∀ t, t ∈ moves →
            (<[mkSquare 4 3 := mkPiece 1 Pawn WHITE]>
               {[mkSquare 5 4 := mkPiece 0 Pawn BLACK]} : Board) !! t = None
            ∧ col t = 4)
    ∧ (is_Some ((<[mkSquare 4 3 := mkPiece 1 Pawn WHITE]>
                   {[mkSquare 5 4 := mkPiece 0 Pawn BLACK]} : Board)
                  !! mkSquare (5 + -1) 4) →
       moves = [])
    ∧ (5 ≠ 6 → (length moves ≤ 1)%nat).
Proof.
  apply (pawn_never_captures 8 (mkPiece 0 Pawn BLACK)
           (<[mkSquare 4 3 := mkPiece 1 Pawn WHITE]> {[mkSquare 5 4 := mkPiece 0 Pawn BLACK]})
           (mkSquare 5 4)).
  - reflexivity.
  - eapply find_piece_Ok. vm_compute. reflexivity.
  - reflexivity.
Defined.

(** ** Moving a piece *)

Lemma move_to_lookup self b s new_square u :
  located b self s →
  (move_to self new_square b).1 !! u
  = if decide (u = new_square) then Some self
    else if decide (u = s) then None else b !! u.
Proof.
  intros Hloc. pose proof Hloc as (_ & Hs & _). apply find_piece_located in Hloc.
  unfold move_to, bind. rewrite Hloc. unfold move_piece; simpl. rewrite Hs.
  destruct (decide (u = new_square)) as [->|Hne].
  - by rewrite lookup_partial_alter_eq.
  - rewrite lookup_partial_alter_ne by done.
    destruct (decide (u = s)) as [->|Hne']; [apply lookup_delete_eq|].
    by rewrite lookup_delete_ne.
Qed.

(** After [move_to] to a square of the board, the board is the source of
    truth for the new position: [find_piece] returns the target.  Any other
    piece that stood on the target is gone from the board, and every other
    piece is still located where it was. *)
Theorem move_to_relocates self b s new_square :
  located b self s → on_board new_square →
  (let* _ := move_to self new_square in find_piece self) b
  = ((move_to self new_square b).1, Ok new_square)
  ∧ (∀ other u, other ≠ self → located b other u →
       if decide (u = new_square)
       then absent (move_to self new_square b).1 other
       else located (move_to self new_square b).1 other u).
Proof.
  intros Hloc Hon. pose proof Hloc as (_ & Hs & _).
  pose proof (move_to_lookup self b s new_square) as Hlk.
  split.
  - assert (Hrun : (move_to self new_square b).2 = Ok tt).
    { apply find_piece_located in Hloc. unfold move_to, bind. by rewrite Hloc. }
    unfold bind at 1. destruct (move_to self new_square b) as [b' o] eqn:Hmove.
    simpl in *. subst o. apply find_piece_located.
    split; [done|]. split.
    + rewrite Hlk by done. by rewrite decide_True.
    + intros t Ht. rewrite Hlk by done.
      destruct (decide (t = new_square)); [done|].
      destruct (decide (t = s)) as [->|Hts]; [done|].
      intros Hbt. destruct Hloc as (_ & _ & Huniq). destruct Hts. by apply Huniq.
  - intros other u Hother (Hu & Hbu & Huniq).
    assert (Hus : u ≠ s) by (intros ->; congruence).
    destruct (decide (u = new_square)) as [->|Hne].
    + intros t Ht. rewrite Hlk by done.
      destruct (decide (t = new_square)); [congruence|].
      destruct (decide (t = s)); [done|].
      intros Hbt. by apply Huniq in Hbt.
    + split; [done|]. split.
      * rewrite Hlk by done. by rewrite !decide_False.
      * intros t Ht. rewrite Hlk by done.
        destruct (decide (t = new_square)); [congruence|].
        destruct (decide (t = s)); [done|]. by apply Huniq.
Qed.

Lemma move_to_relocates_witness :
  (let* _ := move_to (mkPiece 0 Knight WHITE) (mkSquare 2 1) in
   find_piece (mkPiece 0 Knight WHITE))
    (<[mkSquare 2 1 := mkPiece 1 Pawn BLACK]> {[mkSquare 0 0 := mkPiece 0 Knight WHITE]})
  = ((move_to (mkPiece 0 Knight WHITE) (mkSquare 2 1)
        (<[mkSquare 2 1 := mkPiece 1 Pawn BLACK]>
           {[mkSquare 0 0 := mkPiece 0 Knight WHITE]})).1,
     Ok (mkSquare 2 1))
  ∧ (∀ other u, other ≠ mkPiece 0 Knight WHITE →
       located (<[mkSquare 2 1 := mkPiece 1 Pawn BLACK]>
                  {[mkSquare 0 0 := mkPiece 0 Knight WHITE]}) other u →
       if decide (u = mkSquare 2 1)
       then absent (move_to (mkPiece 0 Knight WHITE) (mkSquare 2 1)
                      (<[mkSquare 2 1 := mkPiece 1 Pawn BLACK]>
                         {[mkSquare 0 0 := mkPiece 0 Knight WHITE]})).1 other
       else located (move_to (mkPiece 0 Knight WHITE) (mkSquare 2 1)
                       (<[mkSquare 2 1 := mkPiece 1 Pawn BLACK]>
                          {[mkSquare 0 0 := mkPiece 0 Knight WHITE]})).1 other u).
Proof.
  apply (move_to_relocates (mkPiece 0 Knight WHITE)
           (<[mkSquare 2 1 := mkPiece 1 Pawn BLACK]> {[mkSquare 0 0 := mkPiece 0 Knight WHITE]})
           (mkSquare 0 0) (mkSquare 2 1)).
  - eapply find_piece_Ok. vm_compute. reflexivity.
  - reflexivity.
Defined.

Lemma pawn_run_short self b s :
  located b self s →
  on_board (mkSquare (row s + pawn_direction (player self)) (col s)) →
  row s ≠ pawn_starting_row (player self) →
  ∃ moves,
    Pawn_get_available_moves self b = (b, Ok moves)
    ∧ ∀ t, t ∈ moves → t = mkSquare (row s + pawn_direction (player self)) (col s).
Proof.
  intros Hloc Hone Hrow. eexists. split; [by apply Pawn_run|].
  intros t Ht. destruct (b !! mkSquare (row s + pawn_direction _) _);
    [by apply elem_of_nil in Ht|].
  rewrite decide_False in Ht by done. by apply list_elem_of_singleton in Ht.
Qed.

(** A pawn on its starting row, once moved one row ahead with [move_to], is
    no longer offered a two-step: the next call returns at most the single
    square ahead of its new position. *)
Theorem pawn_moved_loses_two_step fuel self b s :
  kind self = Pawn → located b self s →
  row s = pawn_starting_row (player self) →
  ∃ moves,
    (let* _ := move_to self (mkSquare (row s + pawn_direction (player self)) (col s)) in
     get_available_moves fuel self) b
    = ((move_to self (mkSquare (row s + pawn_direction (player self)) (col s)) b).1,
       Ok moves)
    ∧ (∀ t, t ∈ moves →
            t = mkSquare (row s + 2 * pawn_direction (player self)) (col s)).
Proof.
  intros Hk Hloc Hrow. pose proof Hloc as (Hs%on_board_spec & _).
  set (one := mkSquare (row s + pawn_direction (player self)) (col s)).
  assert (Hone : on_board one).
  { apply on_board_spec. unfold one. destruct (player self); simpl in *; lia. }
  destruct (move_to_relocates self b s one Hloc Hone) as [Hfind _].
  assert (Hrun : (move_to self one b).2 = Ok tt).
  { apply find_piece_located in Hloc. unfold move_to, bind. by rewrite Hloc. }
  unfold bind at 1 in Hfind. unfold bind at 1.
  destruct (move_to self one b) as [b' o] eqn:Hmove. simpl in *. subst o.
  apply find_piece_Ok in Hfind as [_ Hloc'].
  assert (Htwo : on_board (mkSquare (row one + pawn_direction (player self)) (col one))).
  { apply on_board_spec. unfold one. destruct (player self); simpl in *; lia. }
  destruct (pawn_run_short self b' one) as (moves & Hmoves & Hall); [done..| |].
  { unfold one. destruct (player self); simpl in *; lia. }
  exists moves. split; [by unfold get_available_moves; rewrite Hk|].
  intros t Ht. apply Hall in Ht as ->. unfold one; simpl. f_equal. lia.
Qed.

Lemma pawn_moved_loses_two_step_witness :
  ∃ moves,
    (let* _ := move_to (mkPiece 0 Pawn WHITE) (mkSquare (1 + 1) 4) in
     get_available_moves 8 (mkPiece 0 Pawn WHITE))
      {[mkSquare 1 4 := mkPiece 0 Pawn WHITE]}
    = ((move_to (mkPiece 0 Pawn WHITE) (mkSquare (1 + 1) 4)
          {[mkSquare 1 4 := mkPiece 0 Pawn WHITE]}).1, Ok moves)
    ∧ (∀ t, t ∈ moves → t = mkSquare (1 + 2 * 1) 4).
Proof.
  apply (pawn_moved_loses_two_step 8 (mkPiece 0 Pawn WHITE)
           {[mkSquare 1 4 := mkPiece 0 Pawn WHITE]} (mkSquare 1 4)).
  - reflexivity.
  - apply located_singleton. reflexivity.
  - reflexivity.
Defined.

Lemma moves_without_repetition_witness :
  (∃ moves,
     get_available_moves 8 (mkPiece 0 Queen WHITE) {[mkSquare 3 3 := mkPiece 0 Queen WHITE]}
     = ({[mkSquare 3 3 := mkPiece 0 Queen WHITE]}, Ok moves)
     ∧ NoDup moves)
  ∨ (Queen = Pawn
     ∧ ¬ on_board (mkSquare (3 + 1) 3)
     ∧ get_available_moves 8 (mkPiece 0 Queen WHITE) {[mkSquare 3 3 := mkPiece 0 Queen WHITE]}
       = ({[mkSquare 3 3 := mkPiece 0 Queen WHITE]}, Raise OutOfBoundsError)).
Proof.
  apply (moves_without_repetition 8 (mkPiece 0 Queen WHITE)
           {[mkSquare 3 3 := mkPiece 0 Queen WHITE]} (mkSquare 3 3)).
  - simpl. lia.
  - apply located_singleton. reflexivity.
Defined.

Lemma moves_never_onto_own_piece_witness :
  (∃ moves,
     get_available_moves 8 (mkPiece 0 King WHITE)
       (<[mkSquare 1 1 := mkPiece 1 Pawn WHITE]> {[mkSquare 0 0 := mkPiece 0 King WHITE]})
     = (<[mkSquare 1 1 := mkPiece 1 Pawn WHITE]> {[mkSquare 0 0 := mkPiece 0 King WHITE]},
        Ok moves)
     ∧ ∀ t, t ∈ moves →
            on_board t
            ∧ ∀ q, (<[mkSquare 1 1 := mkPiece 1 Pawn WHITE]>
                      {[mkSquare 0 0 := mkPiece 0 King WHITE]} : Board) !! t = Some q →
                   player q ≠ WHITE)
  ∨ (King = Pawn
     ∧ ¬ on_board (mkSquare (0 + 1) 0)
     ∧ get_available_moves 8 (mkPiece 0 King WHITE)
         (<[mkSquare 1 1 := mkPiece 1 Pawn WHITE]> {[mkSquare 0 0 := mkPiece 0 King WHITE]})
       = (<[mkSquare 1 1 := mkPiece 1 Pawn WHITE]> {[mkSquare 0 0 := mkPiece 0 King WHITE]},
          Raise OutOfBoundsError)).
Proof.
  apply (moves_never_onto_own_piece 8 (mkPiece 0 King WHITE)
           (<[mkSquare 1 1 := mkPiece 1 Pawn WHITE]> {[mkSquare 0 0 := mkPiece 0 King WHITE]})
           (mkSquare 0 0)).
  - simpl. lia.
  - eapply find_piece_Ok. vm_compute. reflexivity.
Defined.

Lemma moves_count_bound_witness :
  (∃ moves,
     get_available_moves 8 (mkPiece 0 Bishop BLACK) {[mkSquare 3 3 := mkPiece 0 Bishop BLACK]}
     = ({[mkSquare 3 3 := mkPiece 0 Bishop BLACK]}, Ok moves)
     ∧ (length moves ≤ 13)%nat)
  ∨ (Bishop = Pawn
     ∧ ¬ on_board (mkSquare (3 + -1) 3)
     ∧ get_available_moves 8 (mkPiece 0 Bishop BLACK)
         {[mkSquare 3 3 := mkPiece 0 Bishop BLACK]}
       = ({[mkSquare 3 3 := mkPiece 0 Bishop BLACK]}, Raise OutOfBoundsError)).
Proof.
  apply (moves_count_bound 8 (mkPiece 0 Bishop BLACK)
           {[mkSquare 3 3 := mkPiece 0 Bishop BLACK]} (mkSquare 3 3)).
  - simpl. lia.
  - apply located_singleton. reflexivity.
Defined.

Lemma moves_count_alone_witness :
  ∃ moves,
    get_available_moves 8 (mkPiece 0 Rook BLACK) {[mkSquare 2 5 := mkPiece 0 Rook BLACK]}
    = ({[mkSquare 2 5 := mkPiece 0 Rook BLACK]}, Ok moves)
    ∧ Z.of_nat (length moves) = 14.
Proof.
  apply (moves_count_alone 8 (mkPiece 0 Rook BLACK) (mkSquare 2 5)).
  - simpl. lia.
  - right; left. reflexivity.
  - reflexivity.
Defined.

(** ** Serialisation *)

Lemma class_name_inj : Inj (=) (=) class_name.
Proof. intros [] []; simpl; intros [=]; reflexivity. Qed.

Lemma to_json_lookup self :
  to_json self !! "piece" = Some (class_name (kind self))
  ∧ to_json self !! "player"
    = Some (match player self with WHITE => "white" | BLACK => "black" end).
Proof.
  unfold to_json. split; [apply lookup_insert_eq|].
  rewrite lookup_insert_ne by done. rewrite lookup_singleton_eq.
  by destruct (player self).
Qed.

(** [to_json] has exactly the keys "piece" and "player"; the first holds the
    class name and the second the owner in lower case.  Two pieces serialise
    alike exactly when they have the same kind and the same owner: the
    identity of the piece object is not part of the output. *)
Theorem to_json_kind_and_owner :
  (∀ self,
     to_json self !! "piece" = Some (class_name (kind self))
     ∧ to_json self !! "player"
       = Some (match player self with WHITE => "white" | BLACK => "black" end)
     ∧ dom (to_json self) = ({["piece"; "player"]} : gset string))
  ∧ (∀ self other,
       to_json self = to_json other ↔ kind self = kind other ∧ player self = player other).
Proof.
  split.
  - intros self. destruct (to_json_lookup self) as [Hk Hp].
    split; [done|]. split; [done|].
    unfold to_json. by rewrite dom_insert_L, dom_singleton_L.
  - intros self other. split.
    + intros Heq.
      destruct (to_json_lookup self) as [Hk Hp].
      destruct (to_json_lookup other) as [Hk' Hp'].
      rewrite Heq in Hk, Hp. rewrite Hk in Hk'. rewrite Hp in Hp'.
      injection Hk' as Hk'%class_name_inj. split; [done|].
      by destruct (player self), (player other).
    + intros [Hk Hp]. unfold to_json. by rewrite Hk, Hp.
Qed.

(** ** Only the owner of the other pieces matters *)

Section owners.
Context (b b' : Board).
Hypothesis Howner : ∀ t, player <$> b' !! t = player <$> b !! t.

Lemma owner_None t : b' !! t = None ↔ b !! t = None.
Proof.
  specialize (Howner t). destruct (b' !! t), (b !! t); simpl in *; split; congruence.
Qed.

Lemma owner_Some pl t :
  (∃ q, b' !! t = Some q ∧ player q = pl) ↔ (∃ q, b !! t = Some q ∧ player q = pl).
Proof.
  specialize (Howner t).
  destruct (b' !! t) as [q'|], (b !! t) as [q|]; simpl in *; try discriminate Howner.
  - injection Howner as Heq. split; intros (? & [= <-] & <-); eexists; split; done.
  - split; by intros (? & [=] & _).
Qed.

Lemma owner_can_land pl t : can_land b' pl t ↔ can_land b pl t.
Proof.
  unfold can_land. specialize (Howner t).
  destruct (b' !! t) as [q'|], (b !! t) as [q|]; simpl in *; try discriminate Howner;
    [|done].
  injection Howner as ->. done.
Qed.

Lemma ray_stops_at_owner pl s d n :
  ray_stops_at b' pl s d n → ray_stops_at b pl s d n.
Proof.
  intros (Hn & Hboard & Hempty & Hland & Hstop).
  split; [done|]. split; [done|].
  split. { intros k Hk. by apply owner_None, Hempty. }
  split. { intros Hpos. by apply owner_can_land, Hland. }
  destruct Hstop as [?|[[Hpos Hsome]|Hfriend]]; [by left| |].
  - right; left. split; [done|].
    destruct (b !! shift s d n) eqn:Hq; [done|].
    apply owner_None in Hq. rewrite Hq in Hsome. by destruct Hsome.
  - right; right. by apply owner_Some.
Qed.

Lemma rays_owner pl s ds : ∀ rays rays',
  Forall2 (ray_of b pl s) ds rays → Forall2 (ray_of b' pl s) ds rays' →
  rays = rays'.
Proof.
  induction ds as [|d ds IH]; intros rays rays' H1 H2.
  - apply Forall2_nil_inv_l in H1, H2. by subst.
  - apply Forall2_cons_inv_l in H1 as (ray & rays1 & (n & -> & Hn) & Hrays & ->).
    apply Forall2_cons_inv_l in H2 as (ray' & rays1' & (n' & -> & Hn') & Hrays' & ->).
    apply ray_stops_at_owner in Hn'.
    pose proof (ray_stops_at_le _ _ _ _ _ _ Hn Hn').
    pose proof (ray_stops_at_le _ _ _ _ _ _ Hn' Hn).
    replace n' with n by lia. f_equal. by apply IH.
Qed.
End owners.

(** The moves of a piece depend on the other pieces only through which
    squares are occupied and by which player: on two boards that agree on
    the owner of every square, a piece located on the same square of both
    gets the same outcome, whatever the kinds and identities of the other
    pieces. *)
Theorem moves_depend_on_owners_only fuel self b b' s :
  (8 ≤ fuel)%nat → located b self s → located b' self s →
  (∀ t, player <$> b' !! t = player <$> b !! t) →
  (get_available_moves fuel self b').2 = (get_available_moves fuel self b).2.
Proof.
  intros Hfuel Hloc Hloc' Howner.
  destruct (decide (sliding (kind self))) as [Hk|Hnk].
  { destruct (sliding_run fuel self b s Hfuel Hk Hloc) as (rays & -> & Hall).
    destruct (sliding_run fuel self b' s Hfuel Hk Hloc') as (rays' & -> & Hall').
    simpl. do 2 f_equal. symmetry. by eapply rays_owner. }
  destruct (decide (stepping (kind self))) as [Hk|Hnk'].
  { rewrite !(stepping_run fuel self _ s) by done. simpl. f_equal.
    apply list_filter_iff. intros t.
    by rewrite (owner_can_land b b' Howner). }
  assert (Hk : kind self = Pawn).
  { unfold sliding, stepping in *. destruct (kind self); tauto. }
  unfold get_available_moves. rewrite Hk.
  destruct (decide (on_board (mkSquare (row s + pawn_direction (player self)) (col s))))
    as [Hone|Hone].
  - rewrite !(Pawn_run self _ s) by done. simpl. f_equal.
    pose proof (owner_None b b' Howner) as Hnone.
    destruct (b' !! mkSquare (row s + pawn_direction _) _) eqn:H1',
             (b !! mkSquare (row s + pawn_direction _) _) eqn:H1;
      [done|apply Hnone in H1; congruence|apply Hnone in H1'; congruence|].
    f_equal. destruct (decide (row s = _)); [|done].
    destruct (b' !! mkSquare (row s + 2 * pawn_direction _) _) eqn:H2',
             (b !! mkSquare (row s + 2 * pawn_direction _) _) eqn:H2;
      [done|apply Hnone in H2; congruence|apply Hnone in H2'; congruence|done].
  - by rewrite !(Pawn_off_board self _ s).
Qed.

Lemma moves_depend_on_owners_only_witness :
  (get_available_moves 8 (mkPiece 0 Rook WHITE)
     (<[mkSquare 0 5 := mkPiece 7 Queen BLACK]> {[mkSquare 0 0 := mkPiece 0 Rook WHITE]})).2
  = (get_available_moves 8 (mkPiece 0 Rook WHITE)
       (<[mkSquare 0 5 := mkPiece 1 Pawn BLACK]> {[mkSquare 0 0 := mkPiece 0 Rook WHITE]})).2.
Proof.
  apply (moves_depend_on_owners_only 8 (mkPiece 0 Rook WHITE)
           (<[mkSquare 0 5 := mkPiece 1 Pawn BLACK]> {[mkSquare 0 0 := mkPiece 0 Rook WHITE]})
           (<[mkSquare 0 5 := mkPiece 7 Queen BLACK]> {[mkSquare 0 0 := mkPiece 0 Rook WHITE]})
           (mkSquare 0 0)).
  - simpl. lia.
  - eapply find_piece_Ok. vm_compute. reflexivity.
  - eapply find_piece_Ok. vm_compute. reflexivity.
  - intros t. rewrite !lookup_insert.
    destruct (decide (mkSquare 0 5 = t)); [reflexivity|].
    reflexivity.
Defined.
